(** * go_file_manager: the snapshot-diff file monitor

    A shallow embedding of package [monitor] (FileMonitor, Start, Stop,
    monitorLoop, shouldIgnore, scanDirectory, detectChanges) and of
    [config.LoadConfig], together with the parts of Go's [path/filepath]
    that [scanDirectory] calls (Clean, Join, Ext, Walk; Unix flavour).

    - Go maps ([map[string]FileInfo]) are [gmap string FileInfo].
    - [int64] and [time.Time] instants are [Z].
    - The logger is the event sink: it is modelled by the trace of the calls
      the monitor makes on it ([Log] and [LogEvent]).
    - The directory tree is an explicit value ([Node]); [lstat] and
      [readDirNames] failures are part of it. *)

From stdpp Require Import gmap strings list fin_maps.
From Stdlib Require Import ZArith Ascii String Lia.

Local Open Scope string_scope.
Local Open Scope list_scope.
Local Open Scope Z_scope.

(** ** Go errors *)

Inductive error :=
| SkipDir                      (* filepath.SkipDir *)
| SkipAll                      (* filepath.SkipAll *)
| PathError (msg : string)     (* an *fs.PathError from lstat / open / readdir *)
| Errorf (msg : string).       (* fmt.Errorf(msg) *)

Definition is_SkipDir (e : error) : bool :=
  match e with SkipDir => true | _ => false end.

Definition is_SkipAll (e : error) : bool :=
  match e with SkipAll => true | _ => false end.

(** ** path/filepath (Unix) *)

Module filepath.

Definition Separator : ascii := "/"%char.

Definition IsPathSeparator (c : ascii) : bool := Ascii.eqb c Separator.

(** [Ext]: the suffix beginning at the final dot of the final element of
    the path; empty if there is no dot.  The source scans from the end
    and stops at the first separator; here the scan runs over the reversed
    characters, [acc] holding the characters already passed. *)
Fixpoint ext_scan (rev_path : list ascii) (acc : list ascii) : list ascii :=
  match rev_path with
  | [] => []
  | c :: rest =>
      if IsPathSeparator c then []
      else if Ascii.eqb c "."%char then c :: acc
      else ext_scan rest (c :: acc)
  end.

Definition Ext (path : string) : string :=
  string_of_list_ascii (ext_scan (rev (list_ascii_of_string path)) []).

(** Splitting a path into the elements between separators. *)
Fixpoint split_sep (path : list ascii) (cur : list ascii) : list (list ascii) :=
  match path with
  | [] => [rev cur]
  | c :: rest =>
      if IsPathSeparator c then rev cur :: split_sep rest []
      else split_sep rest (c :: cur)
  end.

Definition dot : list ascii := ["."%char].
Definition dotdot : list ascii := ["."%char; "."%char].

Definition elem_eqb (a b : list ascii) : bool :=
  String.eqb (string_of_list_ascii a) (string_of_list_ascii b).

(** The main loop of [Clean], element by element.  [out] is the output
    buffer as a stack of elements (last written first).  An empty element
    and a [.] element are dropped; a [..] element removes the last real
    element of the buffer when there is one ("can backtrack"), is appended
    when the path is not rooted, and is dropped at the root; any other
    element is appended. *)
Fixpoint clean_elems (rooted : bool) (elems : list (list ascii))
         (out : list (list ascii)) : list (list ascii) :=
  match elems with
  | [] => out
  | e :: rest =>
      if elem_eqb e [] then clean_elems rooted rest out
      else if elem_eqb e dot then clean_elems rooted rest out
      else if elem_eqb e dotdot then
        match out with
        | top :: out' =>
            if elem_eqb top dotdot
            then (if rooted then clean_elems rooted rest out
                  else clean_elems rooted rest (dotdot :: out))
            else clean_elems rooted rest out'
        | [] =>
            if rooted then clean_elems rooted rest out
            else clean_elems rooted rest (dotdot :: out)
        end
      else clean_elems rooted rest (e :: out)
  end.

Fixpoint join_elems (elems : list (list ascii)) : list ascii :=
  match elems with
  | [] => []
  | [e] => e
  | e :: rest => e ++ Separator :: join_elems rest
  end.

Definition Clean (path : string) : string :=
  match list_ascii_of_string path with
  | [] => "."
  | (c :: _) as cs =>
      let rooted := IsPathSeparator c in
      let out := rev (clean_elems rooted (split_sep cs []) []) in
      let body := join_elems out in
      string_of_list_ascii
        (if rooted then Separator :: body
         else match body with [] => dot | _ => body end)
  end.

(** [Join(dir, name)]: the elements from the first non-empty one on are
    joined with the separator and the result is cleaned. *)
Definition Join (dir name : string) : string :=
  if String.eqb dir "" then
    (if String.eqb name "" then "" else Clean name)
  else Clean (dir ++ "/" ++ name).

(** [SplitList]: the elements of a [PATH]-like list, separated by [':']. *)
Fixpoint split_colon (s : list ascii) (cur : list ascii) : list string :=
  match s with
  | [] => [string_of_list_ascii (rev cur)]
  | c :: rest =>
      if Ascii.eqb c ":"%char
      then string_of_list_ascii (rev cur) :: split_colon rest []
      else split_colon rest (c :: cur)
  end.

Definition SplitList (path : string) : list string :=
  if String.eqb path "" then [] else split_colon (list_ascii_of_string path) [].

End filepath.

(** ** int64 arithmetic and strconv *)

Definition int64_min : Z := - 2 ^ 63.
Definition int64_max : Z := 2 ^ 63 - 1.

(** Two's-complement wrap-around of an [int64] result. *)
Definition wrap64 (z : Z) : Z := (z + 2 ^ 63) mod 2 ^ 64 - 2 ^ 63.

Module strconv.

Definition digit (c : ascii) : option Z :=
  let n := Z.of_N (N_of_ascii c) in
  if (48 <=? n) && (n <=? 57) then Some (n - 48) else None.

Fixpoint digits (cs : list ascii) (acc : Z) : option Z :=
  match cs with
  | [] => Some acc
  | c :: rest =>
      match digit c with
      | Some d => digits rest (10 * acc + d)
      | None => None
      end
  end.

(** [ParseInt(s, 10, 64)]: an optional sign, then one or more decimal
    digits; a value outside [int64] is an error ([None]). *)
Definition ParseInt (s : string) : option Z :=
  let parse_unsigned (cs : list ascii) :=
    match cs with
    | [] => None
    | _ => digits cs 0
    end in
  let signed :=
    match list_ascii_of_string s with
    | [] => None
    | c :: rest =>
        if Ascii.eqb c "-"%char then Z.opp <$> parse_unsigned rest
        else if Ascii.eqb c "+"%char then parse_unsigned rest
        else parse_unsigned (c :: rest)
    end in
  match signed with
  | Some v => if (int64_min <=? v) && (v <=? int64_max) then Some v else None
  | None => None
  end.

(** [Atoi] is [ParseInt(s, 10, 0)] converted to [int] (64 bits). *)
Definition Atoi (s : string) : option Z := ParseInt s.

End strconv.

(** ** package config *)

Module config.

Record Config := {
  WatchDir : string;
  LogDir : string;
  CheckInterval : Z;        (* time.Duration, nanoseconds *)
  MaxLogSize : Z;
  AutoAction : bool;
  IgnoreExts : list string;
}.

Definition Second : Z := 1000000000.

(** [LoadConfig], with [os.Getenv] as a function of the variable's name
    (unset variables read as the empty string).  [ensureDir] creates the
    two directories when they are missing and leaves the returned
    settings untouched. *)
Definition LoadConfig (Getenv : string → string) : Config :=
  let watchDir :=
    let dir := Getenv "WATCH_DIR" in
    if String.eqb dir "" then "." else dir in
  let logDir :=
    let dir := Getenv "LOG_DIR" in
    if String.eqb dir "" then "./logs" else dir in
  let checkInterval :=
    let interval := Getenv "CHECK_INTERVAL" in
    if String.eqb interval "" then wrap64 (5 * Second)
    else match strconv.Atoi interval with
         | Some seconds => wrap64 (seconds * Second)
         | None => wrap64 (5 * Second)
         end in
  let maxLogSize :=
    let size := Getenv "MAX_LOG_SIZE" in
    if String.eqb size "" then 1024 * 1024 * 10
    else match strconv.ParseInt size with
         | Some bytes => bytes
         | None => 1024 * 1024 * 10
         end in
  let autoAction := String.eqb (Getenv "AUTO_ACTION") "true" in
  let ignoreExts :=
    let ignoreExist := Getenv "IGNORE_EXTS" in
    if String.eqb ignoreExist "" then [".temp"; ".swp"]
    else filepath.SplitList ignoreExist in
  {| WatchDir := watchDir; LogDir := logDir; CheckInterval := checkInterval;
     MaxLogSize := maxLogSize; AutoAction := autoAction;
     IgnoreExts := ignoreExts |}.

(** The environment in which no variable is set. *)
Definition no_env : string → string := λ _, "".

End config.

(** ** The directory tree and filepath.Walk *)

(** What [os.Lstat] reports of an entry ([os.FileInfo]). *)
Record Stat := { st_size : Z; st_mtime : Z; st_isdir : bool }.

(** One entry of the tree under the watched root.  A directory lists its
    children by name, in the order [readDirNames] returns them. *)
#[local] Unset Elimination Schemes.
Inductive Node :=
| File (size mtime : Z)
| Dir (size mtime : Z) (children : list (string * Node))
| DirUnreadable (size mtime : Z) (err : string)   (* lstat succeeds, readDirNames fails *)
| NoStat (err : string).                          (* lstat fails *)
#[local] Set Elimination Schemes.

Definition isDir (n : Node) : bool :=
  match n with
  | Dir _ _ _ | DirUnreadable _ _ _ => true
  | File _ _ | NoStat _ => false
  end.

(** The arguments [(info, err)] a [WalkFunc] is called with: either the
    entry's info and no error, or an error (with the info of the directory
    when it is [readDirNames] that failed). *)
Inductive visit :=
| Visited (info : Stat)
| Failed (info : option Stat) (err : error).

Section Walk.
Context {S : Type}.

(** A [WalkFunc] that mutates captured variables of type [S]. *)
Definition WalkFunc := string → visit → S → S * option error.

Variable walkFn : WalkFunc.

(** [filepath.walk]: visit the entry, then (for a directory that was read
    and whose visit returned nil) its children in order. *)
Fixpoint walk (path : string) (n : Node) (st : S) {struct n} : S * option error :=
  match n with
  | File sz mt => walkFn path (Visited {| st_size := sz; st_mtime := mt; st_isdir := false |}) st
  | NoStat e => walkFn path (Failed None (PathError e)) st
  | DirUnreadable sz mt e =>
      walkFn path (Failed (Some {| st_size := sz; st_mtime := mt; st_isdir := true |})
                          (PathError e)) st
  | Dir sz mt children =>
      let '(st1, err1) :=
        walkFn path (Visited {| st_size := sz; st_mtime := mt; st_isdir := true |}) st in
      match err1 with
      | Some e => (st1, Some e)
      | None =>
          (fix loop (names : list (string * Node)) (st : S) {struct names}
             : S * option error :=
             match names with
             | [] => (st, None)
             | (name, c) :: rest =>
                 let filename := filepath.Join path name in
                 match c with
                 | NoStat e =>
                     let '(st', r) := walkFn filename (Failed None (PathError e)) st in
                     match r with
                     | Some err => if is_SkipDir err then loop rest st' else (st', Some err)
                     | None => loop rest st'
                     end
                 | _ =>
                     let '(st', r) := walk filename c st in
                     match r with
                     | Some err =>
                         if negb (isDir c) || negb (is_SkipDir err)
                         then (st', Some err) else loop rest st'
                     | None => loop rest st'
                     end
                 end
             end) children st1
      end
  end.

(** The loop over the names of a directory, as a function of its own. *)
Fixpoint walk_names (path : string) (names : list (string * Node)) (st : S)
  : S * option error :=
  match names with
  | [] => (st, None)
  | (name, c) :: rest =>
      let filename := filepath.Join path name in
      match c with
      | NoStat e =>
          let '(st', r) := walkFn filename (Failed None (PathError e)) st in
          match r with
          | Some err => if is_SkipDir err then walk_names path rest st' else (st', Some err)
          | None => walk_names path rest st'
          end
      | _ =>
          let '(st', r) := walk filename c st in
          match r with
          | Some err =>
              if negb (isDir c) || negb (is_SkipDir err)
              then (st', Some err) else walk_names path rest st'
          | None => walk_names path rest st'
          end
      end
  end.

(** [filepath.Walk]: [SkipDir] and [SkipAll] coming out of the root are
    turned into nil. *)
Definition Walk (root : string) (fs : Node) (st : S) : S * option error :=
  let '(st', err) := walk root fs st in
  match err with
  | Some e => if is_SkipDir e || is_SkipAll e then (st', None) else (st', Some e)
  | None => (st', None)
  end.

End Walk.

(** ** package monitor *)

Module monitor.
Import config.

Record FileInfo := {
  Path : string;
  Size : Z;
  ModTime : Z;       (* the instant of a time.Time *)
  Hash : string;
  IsDir : bool;
}.

(** The calls made on the logger, in order. *)
Inductive LoggerCall :=
| Log (message : string)
| LogEvent (event path : string).

Record FileMonitor := {
  config : Config;
  logger : list LoggerCall;
  files : gmap string FileInfo;
  isRunnig : bool;
  stopChan : nat;    (* the address of the channel *)
}.

Definition set_logger (l : list LoggerCall) (m : FileMonitor) : FileMonitor :=
  {| config := config m; logger := l; files := files m;
     isRunnig := isRunnig m; stopChan := stopChan m |}.

Definition set_files (f : gmap string FileInfo) (m : FileMonitor) : FileMonitor :=
  {| config := config m; logger := logger m; files := f;
     isRunnig := isRunnig m; stopChan := stopChan m |}.

Definition set_isRunnig (b : bool) (m : FileMonitor) : FileMonitor :=
  {| config := config m; logger := logger m; files := files m;
     isRunnig := b; stopChan := stopChan m |}.

Definition CRIADO : string := "CRIADO".
Definition MODIFICADO : string := "MODIFICADO".
Definition EXCLUIDO : string := "EXCLUÍDO".

Definition shouldIgnore (cfg : Config) (path : string) : bool :=
  let ext := filepath.Ext path in
  existsb (λ ignoreExt, String.eqb ext ignoreExt) (IgnoreExts cfg).

(** The condition of the [else if] of [detectChanges]. *)
Definition modified (newInfo oldInfo : FileInfo) : bool :=
  negb (IsDir newInfo)
  && (negb (Size newInfo =? Size oldInfo)
      || negb (ModTime newInfo =? ModTime oldInfo)
      || (negb (String.eqb (Hash newInfo) "")
          && negb (String.eqb (Hash oldInfo) "")
          && negb (String.eqb (Hash newInfo) (Hash oldInfo)))).

(** The inner loop of [detectChanges], over the entries of [oldFiles]. *)
Definition deletions (oldEntries : list (string * FileInfo))
           (newFiles : gmap string FileInfo) : list LoggerCall :=
  flat_map (λ '(path, _),
              match newFiles !! path with
              | None => [LogEvent EXCLUIDO path]
              | Some _ => []
              end) oldEntries.

(** One iteration of the outer loop of [detectChanges]: the created or
    modified test for the entry of [newFiles], then the inner loop. *)
Definition detectChanges_iter (oldFiles newFiles : gmap string FileInfo)
           (entry : string * FileInfo) : list LoggerCall :=
  let '(path, newInfo) := entry in
  match oldFiles !! path with
  | None => [LogEvent CRIADO path]
  | Some oldInfo =>
      if modified newInfo oldInfo then [LogEvent MODIFICADO path] else []
  end
  ++ deletions (map_to_list oldFiles) newFiles.

(** [detectChanges] with the order in which [range newFiles] yields the
    entries made explicit. *)
Definition detectChanges_in (order : list (string * FileInfo))
           (oldFiles newFiles : gmap string FileInfo) : list LoggerCall :=
  flat_map (detectChanges_iter oldFiles newFiles) order.

(** [detectChanges]: the logger calls it makes.  Go leaves the order of a
    [range] over a map unspecified; the order of [map_to_list] stands for
    it. *)
Definition detectChanges (oldFiles newFiles : gmap string FileInfo) : list LoggerCall :=
  detectChanges_in (map_to_list newFiles) oldFiles newFiles.

(** The function literal passed to [filepath.Walk]; the captured
    [currentFiles] is the state. *)
Definition scanVisit (cfg : Config) : @WalkFunc (gmap string FileInfo) :=
  λ path v currentFiles,
    match v with
    | Failed _ err => (currentFiles, Some err)
    | Visited info =>
        if st_isdir info && String.eqb path (LogDir cfg)
        then (currentFiles, Some SkipDir)
        else if negb (st_isdir info) && shouldIgnore cfg path
        then (currentFiles, None)
        else
          let fileInfo := {| Path := path; Size := st_size info;
                             ModTime := st_mtime info; Hash := "";
                             IsDir := st_isdir info |} in
          (<[path := fileInfo]> currentFiles, None)
    end.

Definition error_text (e : error) : string :=
  match e with
  | SkipDir => "skip this directory"
  | SkipAll => "skip everything and stop the walk"
  | PathError msg => msg
  | Errorf msg => msg
  end.

(** [scanDirectory] run on the tree [fs]. *)
Definition scanDirectory (fs : Node) (m : FileMonitor) : FileMonitor * option error :=
  let oldFiles := files m in
  let '(currentFiles, err) := Walk (scanVisit (config m)) (WatchDir (config m)) fs ∅ in
  match err with
  | Some e =>
      (set_logger (logger m ++ [Log ("Erro ao escanear arquivo: " ++ error_text e)]) m,
       Some e)
  | None =>
      let m1 := set_logger (logger m ++ detectChanges oldFiles currentFiles) m in
      (set_files currentFiles m1, None)
  end.

(** *** Channels

    The heap of channels: address [c] is the [c]-th cell, which holds
    whether the channel has been closed.  Nothing is ever sent on the
    stop channel, so a receive from it can proceed exactly when it is
    closed. *)
Definition make_chan (chans : list bool) : nat * list bool :=
  (List.length chans, (chans ++ [false])%list).

(** [close(c)]; [None] is the run-time panic (close of a closed or nil
    channel). *)
Definition close_chan (c : nat) (chans : list bool) : option (list bool) :=
  match chans !! c with
  | Some false => Some (<[c := true]> chans)
  | _ => None
  end.

Definition chan_closed (c : nat) (chans : list bool) : bool :=
  match chans !! c with
  | Some true => true
  | _ => false
  end.

Definition NewFileMonitor (cfg : Config) (log : list LoggerCall) (chans : list bool)
  : FileMonitor * list bool :=
  let '(c, chans') := make_chan chans in
  ({| config := cfg; logger := log; files := ∅; isRunnig := false; stopChan := c |},
   chans').

Definition AlreadyRunning : error := Errorf "o arquivo já está sendo monitorado".

(** *** Start and Stop, called with no other goroutine in between

    [Start] returns the monitor, the error, and whether the statement
    [go m.monitorLoop()] was executed. *)
Definition Start (fs : Node) (m : FileMonitor) : FileMonitor * option error * bool :=
  if isRunnig m then (m, Some AlreadyRunning, false)
  else
    let m := set_isRunnig true m in
    let '(m, err) := scanDirectory fs m in
    match err with
    | Some e => (set_isRunnig false m, Some e, false)
    | None => (m, None, true)
    end.

(** [Stop]; [None] is a panic. *)
Definition Stop (m : FileMonitor) (chans : list bool) : option (FileMonitor * list bool) :=
  if isRunnig m then
    match close_chan (stopChan m) chans with
    | Some chans' => Some (set_isRunnig false m, chans')
    | None => None
    end
  else Some (m, chans).

Definition GetFileCount (m : FileMonitor) : Z :=
  map_fold (λ _ info count, if IsDir info then count else count + 1) 0 (files m).

Definition GetTotalSize (m : FileMonitor) : Z :=
  map_fold (λ _ info total, if IsDir info then total else wrap64 (total + Size info))
           0 (files m).

End monitor.

(** ** Goroutines

    The interleaving semantics of the monitor's methods, one Go statement
    per step.  [m.mutex] is a lock with a (ghost) holder; a goroutine that
    calls [Lock] while it is held cannot step.  A schedule is a list of
    labels; the scheduler, the ticker, the choice of [select] among several
    ready cases and the changes of the file system are all free. *)

Module runtime.
Import config monitor.

Inductive Call := CallStart | CallStop.

(** Where a goroutine stands inside [scanDirectory]; the locals
    [oldFiles] and [currentFiles] are carried along. *)
Inductive ScanPc :=
| ScanLock
| ScanCopy
| ScanUnlock (oldFiles : gmap string FileInfo)
| ScanWalk (oldFiles : gmap string FileInfo)    (* the walk, then Log or detectChanges *)
| ScanSwapLock (currentFiles : gmap string FileInfo)
| ScanSwap (currentFiles : gmap string FileInfo)
| ScanSwapUnlock
| ScanReturn (err : option error).

Inductive Pc :=
(* Start *)
| StartLock                (* m.mutex.Lock() *)
| StartCheck               (* if m.isRunnig *)
| StartUnlockRunning       (* m.mutex.Unlock(); return fmt.Errorf(...) *)
| StartSet                 (* m.isRunnig = true *)
| StartUnlock              (* m.mutex.Unlock() *)
| StartScan (s : ScanPc)   (* err := m.scanDirectory(); err != nil *)
| StartRollbackLock (err : error)
| StartRollback (err : error)        (* m.isRunnig = false *)
| StartRollbackUnlock (err : error)  (* m.mutex.Unlock(); return err *)
| StartGo                  (* go m.monitorLoop(); return nil *)
(* Stop *)
| StopLock                 (* m.mutex.Lock(); defer m.mutex.Unlock() *)
| StopCheck                (* if m.isRunnig *)
| StopClose                (* close(m.stopChan) *)
| StopClear                (* m.isRunnig = false *)
| StopUnlock               (* the deferred Unlock; return *)
(* monitorLoop *)
| LoopNewTicker            (* ticker := time.NewTicker(m.config.CheckInterval) *)
| LoopSelect               (* select { case <-ticker.C: ... case <-m.stopChan: ... } *)
| LoopScan (s : ScanPc)    (* m.scanDirectory() *)
| Exit.                    (* the goroutine has nothing left to run *)

Record Goroutine := {
  pc : Pc;
  todo : list Call;                 (* the calls it still has to make *)
  results : list (option error);    (* what its calls returned, in order *)
  tick : bool;                      (* a value is waiting in its ticker.C *)
}.

Record World := {
  mon : FileMonitor;
  mutex : option nat;      (* the goroutine holding m.mutex *)
  chans : list bool;
  fs : Node;
  pool : list Goroutine;
  spawned : nat;           (* how many times go m.monitorLoop() ran *)
  crashed : bool;          (* an unrecovered panic ended the program *)
}.

Definition set_mon (m : FileMonitor) (w : World) : World :=
  {| mon := m; mutex := mutex w; chans := chans w; fs := fs w;
     pool := pool w; spawned := spawned w; crashed := crashed w |}.
Definition set_mutex (h : option nat) (w : World) : World :=
  {| mon := mon w; mutex := h; chans := chans w; fs := fs w;
     pool := pool w; spawned := spawned w; crashed := crashed w |}.
Definition set_chans (c : list bool) (w : World) : World :=
  {| mon := mon w; mutex := mutex w; chans := c; fs := fs w;
     pool := pool w; spawned := spawned w; crashed := crashed w |}.
Definition set_fs (t : Node) (w : World) : World :=
  {| mon := mon w; mutex := mutex w; chans := chans w; fs := t;
     pool := pool w; spawned := spawned w; crashed := crashed w |}.
Definition set_pool (p : list Goroutine) (w : World) : World :=
  {| mon := mon w; mutex := mutex w; chans := chans w; fs := fs w;
     pool := p; spawned := spawned w; crashed := crashed w |}.
Definition set_crashed (w : World) : World :=
  {| mon := mon w; mutex := mutex w; chans := chans w; fs := fs w;
     pool := pool w; spawned := spawned w; crashed := true |}.
Definition go_monitorLoop (w : World) : World :=
  {| mon := mon w; mutex := mutex w; chans := chans w; fs := fs w;
     pool := (pool w ++ [{| pc := LoopNewTicker; todo := []; results := [];
                            tick := false |}])%list;
     spawned := Datatypes.S (spawned w); crashed := crashed w |}.

Definition set_pc (p : Pc) (gr : Goroutine) : Goroutine :=
  {| pc := p; todo := todo gr; results := results gr; tick := tick gr |}.

Definition entry (c : Call) : Pc :=
  match c with CallStart => StartLock | CallStop => StopLock end.

(** The goroutine of a caller that makes the given calls one after the
    other. *)
Definition caller (calls : list Call) : Goroutine :=
  match calls with
  | [] => {| pc := Exit; todo := []; results := []; tick := false |}
  | c :: rest => {| pc := entry c; todo := rest; results := []; tick := false |}
  end.

(** The current call returns [r]; the caller goes on to its next call. *)
Definition ret (r : option error) (gr : Goroutine) : Goroutine :=
  match todo gr with
  | [] => {| pc := Exit; todo := []; results := (results gr ++ [r])%list; tick := tick gr |}
  | c :: rest =>
      {| pc := entry c; todo := rest; results := (results gr ++ [r])%list; tick := tick gr |}
  end.

(** [m.mutex.Lock()] by goroutine [g]: blocked ([None]) while held. *)
Definition lock (g : nat) (w : World) : option World :=
  match mutex w with
  | None => Some (set_mutex (Some g) w)
  | Some _ => None
  end.

(** [m.mutex.Unlock()]; unlocking an unlocked mutex is a fatal error. *)
Definition unlock (w : World) : World :=
  match mutex w with
  | Some _ => set_mutex None w
  | None => set_crashed w
  end.

(** One statement of [scanDirectory]. *)
Definition scan_step (g : nat) (s : ScanPc) (w : World) : option (ScanPc * World) :=
  match s with
  | ScanLock => w' ← lock g w; Some (ScanCopy, w')
  | ScanCopy => Some (ScanUnlock (files (mon w)), w)
  | ScanUnlock oldFiles => Some (ScanWalk oldFiles, unlock w)
  | ScanWalk oldFiles =>
      let m := mon w in
      let '(currentFiles, err) :=
        Walk (scanVisit (monitor.config m)) (WatchDir (monitor.config m)) (fs w) ∅ in
      match err with
      | Some e =>
          Some (ScanReturn (Some e),
                set_mon (set_logger
                           (logger m ++ [Log ("Erro ao escanear arquivo: " ++ error_text e)])
                           m) w)
      | None =>
          Some (ScanSwapLock currentFiles,
                set_mon (set_logger (logger m ++ detectChanges oldFiles currentFiles) m) w)
      end
  | ScanSwapLock currentFiles => w' ← lock g w; Some (ScanSwap currentFiles, w')
  | ScanSwap currentFiles =>
      Some (ScanSwapUnlock, set_mon (set_files currentFiles (mon w)) w)
  | ScanSwapUnlock => Some (ScanReturn None, unlock w)
  | ScanReturn _ => None
  end.

(** One statement of goroutine [g], whose state is [gr].  [choice] is the
    case [select] picks when both can proceed ([true]: the ticker). *)
Definition exec (g : nat) (choice : bool) (gr : Goroutine) (w : World)
  : option (Goroutine * World) :=
  match pc gr with
  | StartLock => w' ← lock g w; Some (set_pc StartCheck gr, w')
  | StartCheck =>
      if isRunnig (mon w) then Some (set_pc StartUnlockRunning gr, w)
      else Some (set_pc StartSet gr, w)
  | StartUnlockRunning => Some (ret (Some AlreadyRunning) gr, unlock w)
  | StartSet => Some (set_pc StartUnlock gr, set_mon (set_isRunnig true (mon w)) w)
  | StartUnlock => Some (set_pc (StartScan ScanLock) gr, unlock w)
  | StartScan (ScanReturn (Some e)) => Some (set_pc (StartRollbackLock e) gr, w)
  | StartScan (ScanReturn None) => Some (set_pc StartGo gr, w)
  | StartScan s => '(s', w') ← scan_step g s w; Some (set_pc (StartScan s') gr, w')
  | StartRollbackLock e => w' ← lock g w; Some (set_pc (StartRollback e) gr, w')
  | StartRollback e =>
      Some (set_pc (StartRollbackUnlock e) gr, set_mon (set_isRunnig false (mon w)) w)
  | StartRollbackUnlock e => Some (ret (Some e) gr, unlock w)
  | StartGo => Some (ret None gr, go_monitorLoop w)
  | StopLock => w' ← lock g w; Some (set_pc StopCheck gr, w')
  | StopCheck =>
      if isRunnig (mon w) then Some (set_pc StopClose gr, w)
      else Some (set_pc StopUnlock gr, w)
  | StopClose =>
      match close_chan (stopChan (mon w)) (chans w) with
      | Some chans' => Some (set_pc StopClear gr, set_chans chans' w)
      | None => Some (set_pc Exit gr, set_crashed (unlock w))
      end
  | StopClear => Some (set_pc StopUnlock gr, set_mon (set_isRunnig false (mon w)) w)
  | StopUnlock => Some (ret None gr, unlock w)
  | LoopNewTicker =>
      (* NewTicker panics on a non-positive interval *)
      if CheckInterval (monitor.config (mon w)) <=? 0
      then Some (set_pc Exit gr, set_crashed w)
      else Some (set_pc LoopSelect gr, w)
  | LoopSelect =>
      let stop := chan_closed (stopChan (mon w)) (chans w) in
      match tick gr, stop with
      | true, true =>
          if choice
          then Some ({| pc := LoopScan ScanLock; todo := todo gr;
                        results := results gr; tick := false |}, w)
          else Some (set_pc Exit gr, w)
      | true, false =>
          Some ({| pc := LoopScan ScanLock; todo := todo gr;
                   results := results gr; tick := false |}, w)
      | false, true => Some (set_pc Exit gr, w)
      | false, false => None
      end
  | LoopScan (ScanReturn _) => Some (set_pc LoopSelect gr, w)
  | LoopScan s => '(s', w') ← scan_step g s w; Some (set_pc (LoopScan s') gr, w')
  | Exit => None
  end.

(** The goroutines that own a ticker. *)
Definition is_loop (p : Pc) : bool :=
  match p with LoopSelect | LoopScan _ => true | _ => false end.

Inductive Label :=
| Run (g : nat) (choice : bool)   (* goroutine g runs one statement *)
| Tick (g : nat)                  (* the ticker of g delivers a value *)
| Touch (fs' : Node).             (* the file system changes *)

Definition step (l : Label) (w : World) : option World :=
  if crashed w then None
  else
    match l with
    | Run g choice =>
        gr ← pool w !! g;
        '(gr', w') ← exec g choice gr w;
        Some (set_pool (<[g := gr']> (pool w')) w')
    | Tick g =>
        gr ← pool w !! g;
        if negb (is_loop (pc gr)) then None else
        Some (set_pool (<[g := {| pc := pc gr; todo := todo gr;
                                  results := results gr; tick := true |}]> (pool w)) w)
    | Touch fs' => Some (set_fs fs' w)
    end.

Fixpoint run (sched : list Label) (w : World) : option World :=
  match sched with
  | [] => Some w
  | l :: rest => w' ← step l w; run rest w'
  end.

(** The program: a monitor is made, then every caller runs its calls. *)
Definition init (cfg : Config) (tree : Node) (callers : list (list Call)) : World :=
  let '(m, chans) := NewFileMonitor cfg [] [] in
  {| mon := m; mutex := None; chans := chans; fs := tree;
     pool := caller <$> callers; spawned := 0; crashed := false |}.

Definition reachable (cfg : Config) (tree : Node) (callers : list (list Call))
           (w : World) : Prop :=
  ∃ sched, run sched (init cfg tree callers) = Some w.

End runtime.

(** ** Vocabulary of the properties *)

Module observe.
Import config monitor.

#[global] Instance error_eq_dec : EqDecision error.
Proof. solve_decision. Defined.

#[global] Instance LoggerCall_eq_dec : EqDecision LoggerCall.
Proof. solve_decision. Defined.

(** How many times the call [c] was made on the logger. *)
Definition occurrences (c : LoggerCall) (calls : list LoggerCall) : nat :=
  List.length (filter (λ x, x = c) calls).

(** What the [if]/[else if] of one iteration of [detectChanges] logs. *)
Definition verdict (oldFiles : gmap string FileInfo) (path : string)
           (newInfo : FileInfo) : list LoggerCall :=
  match oldFiles !! path with
  | None => [LogEvent CRIADO path]
  | Some oldInfo =>
      if modified newInfo oldInfo then [LogEvent MODIFICADO path] else []
  end.

(** The message of the first entry, in the order of the walk, whose
    [lstat] or [readDirNames] fails, the subtree of a directory visited
    under the path [logDir] left out. *)
Fixpoint first_error (logDir : string) (path : string) (n : Node) {struct n}
  : option string :=
  match n with
  | File _ _ => None
  | NoStat e => Some e
  | DirUnreadable _ _ e => Some e
  | Dir _ _ children =>
      if String.eqb path logDir then None
      else
        (fix names (cs : list (string * Node)) : option string :=
           match cs with
           | [] => None
           | (name, c) :: rest =>
               match first_error logDir (filepath.Join path name) c with
               | Some e => Some e
               | None => names rest
               end
           end) children
  end.

Fixpoint first_error_names (logDir : string) (path : string)
         (cs : list (string * Node)) : option string :=
  match cs with
  | [] => None
  | (name, c) :: rest =>
      match first_error logDir (filepath.Join path name) c with
      | Some e => Some e
      | None => first_error_names logDir path rest
      end
  end.

(** The outcome of a walk that started at an entry: nil, or [SkipDir]
    from a directory, when nothing fails; the first failure otherwise. *)
Definition outcome_matches (n : Node) (expected : option string)
           (r : option error) : Prop :=
  match expected with
  | Some msg => r = Some (PathError msg)
  | None => r = None ∨ (r = Some SkipDir ∧ isDir n = true)
  end.

(** The scans of the poll loop, one per state of the file system; the
    loop drops the error of a scan. *)
Definition scans (trees : list Node) (m : FileMonitor) : FileMonitor :=
  foldl (λ m fs, (scanDirectory fs m).1) m trees.

Definition hashes_empty (snapshot : gmap string FileInfo) : Prop :=
  map_Forall (λ _ info, Hash info = "") snapshot.

End observe.

(** ** The locking discipline *)

Module discipline.
Import monitor runtime.

Definition scan_holding (s : ScanPc) : bool :=
  match s with
  | ScanCopy | ScanUnlock _ | ScanSwap _ | ScanSwapUnlock => true
  | ScanLock | ScanWalk _ | ScanSwapLock _ | ScanReturn _ => false
  end.

(** The statements between a [Lock] and its [Unlock]. *)
Definition holding (p : Pc) : bool :=
  match p with
  | StartCheck | StartUnlockRunning | StartSet | StartUnlock
  | StartRollback _ | StartRollbackUnlock _
  | StopCheck | StopClose | StopClear | StopUnlock => true
  | StartScan s | LoopScan s => scan_holding s
  | StartLock | StartRollbackLock _ | StartGo | StopLock
  | LoopNewTicker | LoopSelect | Exit => false
  end.

(** A [Start] that has set the flag and has neither rolled it back nor
    launched the loop yet. *)
Definition committed (p : Pc) : bool :=
  match p with
  | StartUnlock | StartScan _ | StartRollbackLock _ | StartRollback _ | StartGo => true
  | _ => false
  end.

Definition weight (gr : Goroutine) : nat :=
  if committed (pc gr) then 1%nat else 0%nat.

(** How many goroutines stand there. *)
Definition in_flight (pool : list Goroutine) : nat := sum_list_with weight pool.



(** The lock protects the flag: a goroutine is between [Lock] and
    [Unlock] exactly when it is the holder. *)
Definition mutex_inv (w : World) : Prop :=
  (∀ g gr, pool w !! g = Some gr → (holding (pc gr) = true ↔ mutex w = Some g))
  ∧ (∀ h, mutex w = Some h → (h < List.length (pool w))%nat).



(** The schedule that lets goroutine [g] run [n] statements in a row. *)
Definition alone (g : nat) (n : nat) : list Label := replicate n (Run g false).

End discipline.

(** ** Sample trees and monitors *)

Module sample.
Import config monitor.

(** The settings when no environment variable is set. *)
Definition default_config : Config := LoadConfig no_env.

(** A fresh monitor under the default settings. *)
Definition fresh : FileMonitor := (NewFileMonitor default_config [] []).1.

Definition tree_a_b : Node :=
  Dir 4096 100 [("a.txt", File 10 100); ("b.txt", File 5 100)].

(** [tree_a_b] after [b.txt] has been removed. *)
Definition tree_a : Node :=
  Dir 4096 101 [("a.txt", File 10 100)].

(** The watched root with the log directory the logger writes into. *)
Definition tree_with_logs : Node :=
  Dir 4096 100 [("a.txt", File 10 100);
                ("logs", Dir 4096 100 [("file_monitor_2024-01-01.log", File 120 100)])].

(** [tree_a_b] with an entry whose [lstat] fails. *)
Definition tree_broken : Node :=
  Dir 4096 100 [("a.txt", File 10 100);
                ("gone.txt", NoStat "lstat gone.txt: no such file or directory");
                ("b.txt", File 5 100)].

Definition info_b : FileInfo :=
  {| Path := "b.txt"; Size := 5; ModTime := 100; Hash := ""; IsDir := false |}.


(** The log directory with a file whose [lstat] fails inside. *)
Definition tree_broken_logs : Node :=
  Dir 4096 100 [("a.txt", File 10 100);
                ("logs", Dir 4096 100 [("x.log", NoStat "lstat logs/x.log: permission denied")])].

(** Settings whose log directory is written the way the walk spells it. *)
Definition plain_logs_config : Config :=
  {| WatchDir := "."; LogDir := "logs"; CheckInterval := 5 * Second;
     MaxLogSize := 1024 * 1024 * 10; AutoAction := false;
     IgnoreExts := [".temp"; ".swp"] |}.


(** An environment that sets one variable. *)
Definition env_with (name value : string) : string → string :=
  λ x, if String.eqb x name then value else "".

(** One caller: Start, Stop, Start again, Stop again. *)
Definition restart_program : runtime.World :=
  runtime.init default_config tree_a_b
               [[runtime.CallStart; runtime.CallStop; runtime.CallStart; runtime.CallStop]].

(** One caller: Start, then Stop. *)
Definition start_stop_program : runtime.World :=
  runtime.init default_config tree_a_b [[runtime.CallStart; runtime.CallStop]].


(** Two callers of Start. *)
Definition two_starters : runtime.World :=
  runtime.init default_config tree_a_b [[runtime.CallStart]; [runtime.CallStart]].

(** What is looked at in a world. *)
Definition summary (w : runtime.World)
  : list runtime.Pc * list (list (option error)) * bool * list bool * nat * bool :=
  (runtime.pc <$> runtime.pool w, runtime.results <$> runtime.pool w,
   isRunnig (runtime.mon w), runtime.chans w, runtime.spawned w, runtime.crashed w).

End sample.

(** ** Vocabulary of the snapshot and of the queries *)

Module snapshot.
Import config monitor.

(** The entries that are not directories. *)
Definition regular (files : gmap string FileInfo) : gmap string FileInfo :=
  filter (λ kv, IsDir kv.2 = false) files.

(** The sum of the sizes of the entries that are not directories, as an
    integer of unbounded size. *)
Definition sizes_sum (entries : list (string * FileInfo)) : Z :=
  foldr (λ '(_, info) total, if IsDir info then total else total + Size info) 0 entries.

Definition plain_total (files : gmap string FileInfo) : Z :=
  sizes_sum (map_to_list files).

(** The loops of [GetFileCount] and [GetTotalSize] run over the entries in
    the order [order]. *)
Definition count_in (order : list (string * FileInfo)) : Z :=
  foldl (λ count '(_, info), if IsDir info then count else count + 1) 0 order.

Definition total_in (order : list (string * FileInfo)) : Z :=
  foldl (λ total '(_, info), if IsDir info then total else wrap64 (total + Size info))
        0 order.

(** What the scan's function guarantees of an entry stored under [p]: it
    carries its own key, no fingerprint, is not a directory stored under
    [LogDir], and is not a file with an ignored extension. *)
Definition well_recorded (cfg : Config) (p : string) (info : FileInfo) : Prop :=
  Path info = p
  ∧ Hash info = ""
  ∧ (IsDir info = true → p ≠ LogDir cfg)
  ∧ (IsDir info = false → filepath.Ext p ∉ IgnoreExts cfg).

End snapshot.

(** ** package logger

    The disk is the content of each file by path; the logger is the only
    writer.  What the operating system and the clock decide is given to
    each call: the formatted times, whether [OpenFile] and [Stat] fail, and
    how the write goes.  [mu] is a [sync.Mutex]: it is not reentrant, and
    a call that locks it while it is locked never returns. *)

Module logger.
Import config.

(** An [*os.File]. *)
Record File := { name : string; closed : bool }.

Record Logger := {
  config : Config;
  file : option File;
  mu : bool;               (* locked *)
  currentSize : Z;
}.

Inductive WriteOutcome :=
| WriteAll                                   (* every byte is written *)
| WriteFails (written : nat) (err : string). (* some bytes, then an error *)

Record Env := {
  date : string;               (* time.Now().Format("2006-01-02") *)
  stamp : string;              (* time.Now().Format("2006-01-02 15:04:05") *)
  open_error : option string;  (* the error of os.OpenFile *)
  stat_error : option string;  (* the error of file.Stat *)
  write : WriteOutcome;        (* how file.WriteString goes *)
}.

(** How a call ends. *)
Inductive Outcome :=
| Returns (err : option error)
| Blocks.

Definition set_mu (b : bool) (l : Logger) : Logger :=
  {| config := config l; file := file l; mu := b; currentSize := currentSize l |}.

Definition close_file (l : Logger) : Logger :=
  match file l with
  | Some f =>
      {| config := config l; file := Some {| name := name f; closed := true |};
         mu := mu l; currentSize := currentSize l |}
  | None => l
  end.

Definition fileName (env : Env) : string := "file_monitor_" ++ date env ++ ".log".

Definition size_of (disk : gmap string string) (path : string) : Z :=
  match disk !! path with
  | Some content => Z.of_nat (String.length content)
  | None => 0
  end.

(** [O_CREATE]: the file is made, empty, when it is missing. *)
Definition create (path : string) (disk : gmap string string) : gmap string string :=
  match disk !! path with
  | Some _ => disk
  | None => <[path := ""]> disk
  end.

(** [O_APPEND]: the bytes go to the end of the file. *)
Definition append_to (path : string) (bytes : string) (disk : gmap string string)
  : gmap string string :=
  alter (λ content, (content ++ bytes)%string) path disk.

Definition openLogFile (env : Env) (l : Logger) (disk : gmap string string)
  : Logger * gmap string string * Outcome :=
  if mu l then (l, disk, Blocks)
  else
    let l := close_file l in
    let filePath := filepath.Join (LogDir (config l)) (fileName env) in
    match open_error env with
    | Some e => (l, disk, Returns (Some (Errorf ("falha ao abrir o arquivo de log: " ++ e))))
    | None =>
        let disk := create filePath disk in
        match stat_error env with
        | Some e =>
            (l, disk,
             Returns (Some (Errorf ("falha ao obter informações do arquivo de log: " ++ e))))
        | None =>
            ({| config := config l; file := Some {| name := filePath; closed := false |};
                mu := false; currentSize := size_of disk filePath |},
             disk, Returns None)
        end
    end.

(** [NewLogger]: no logger when the log file cannot be opened. *)
Definition NewLogger (cfg : Config) (env : Env) (disk : gmap string string)
  : option Logger * gmap string string * option error :=
  let logger := {| config := cfg; file := None; mu := false; currentSize := 0 |} in
  match openLogFile env logger disk with
  | (l, disk', Returns None) => (Some l, disk', None)
  | (_, disk', Returns (Some err)) => (None, disk', Some err)
  | (_, disk', Blocks) => (None, disk', None)
  end.

Definition newline : string := String "010"%char "".

Definition formattedMsg (env : Env) (message : string) : string :=
  "[" ++ stamp env ++ "] " ++ message ++ newline.

Definition prefix_of (n : nat) (bytes : string) : string := String.substring 0 n bytes.

Definition Log (env : Env) (message : string) (l : Logger) (disk : gmap string string)
  : Logger * gmap string string * Outcome :=
  if mu l then (l, disk, Blocks)
  else
    let write_error e :=
      Returns (Some (Errorf ("falha ao escrever no arquivo de log: " ++ e))) in
    match file l with
    | None => (l, disk, write_error "invalid argument")
    | Some f =>
        if closed f then (l, disk, write_error "file already closed")
        else
          match write env with
          | WriteFails written e =>
              (l, append_to (name f) (prefix_of written (formattedMsg env message)) disk,
               write_error e)
          | WriteAll =>
              let disk := append_to (name f) (formattedMsg env message) disk in
              let size :=
                wrap64 (currentSize l
                        + Z.of_nat (String.length (formattedMsg env message))) in
              let l := {| config := config l; file := file l; mu := true;
                          currentSize := size |} in
              if size >? MaxLogSize (config l) then
                (* return l.openLogFile(), the lock still held *)
                match openLogFile env l disk with
                | (l', disk', Returns r) => (set_mu false l', disk', Returns r)
                | (l', disk', Blocks) => (l', disk', Blocks)
                end
              else (set_mu false l, disk, Returns None)
          end
    end.

Definition LogEvent (env : Env) (event path : string) (l : Logger)
           (disk : gmap string string) : Logger * gmap string string * Outcome :=
  Log env ("EVENTO: " ++ event ++ " | Arquivo: " ++ path) l disk.

Definition Close (l : Logger) : Logger * Outcome :=
  if mu l then (l, Blocks)
  else
    match file l with
    | Some f =>
        if closed f then (l, Returns (Some (Errorf "close: file already closed")))
        else (close_file l, Returns None)
    | None => (l, Returns None)
    end.

(** The logger has an open file, unlocked, and [currentSize] is the size of
    that file on the disk. *)
Definition tracks (l : Logger) (disk : gmap string string) : Prop :=
  mu l = false
  ∧ ∃ f content,
      file l = Some f ∧ closed f = false
      ∧ disk !! name f = Some content
      ∧ currentSize l = Z.of_nat (String.length content).

(** Nothing that was on the disk has been cut or removed. *)
Definition grows (disk disk' : gmap string string) : Prop :=
  ∀ path content,
    disk !! path = Some content →
    ∃ more, disk' !! path = Some (content ++ more)%string.

End logger.

(** ** Vocabulary of strings *)

Module text.

(** [strings.Join]. *)
Fixpoint join_with (sep : string) (elems : list string) : string :=
  match elems with
  | [] => ""
  | [e] => e
  | e :: rest => e ++ sep ++ join_with sep rest
  end.

Definition has_char (c : ascii) (s : string) : Prop := c ∈ list_ascii_of_string s.

(** The strings [filepath.Ext] can return: empty, or a dot followed by
    characters that are neither dots nor separators. *)
Definition ext_shape (e : string) : Prop :=
  e = ""
  ∨ ∃ rest, e = String "."%char rest ∧ ¬ has_char "."%char rest ∧ ¬ has_char "/"%char rest.

End text.

(** ** A single Start *)

Module once.
Import monitor runtime discipline.

Definition is_Start (c : Call) : bool :=
  match c with CallStart => true | CallStop => false end.

(** The statements of [Start] before the flag is set. *)
Definition awaiting (p : Pc) : bool :=
  match p with
  | StartLock | StartCheck | StartSet => true
  | _ => false
  end.

(** The calls of [Start] a goroutine has not carried to the assignment of
    the flag: the one it is in, and those it still has to make. *)
Definition starts_left (gr : Goroutine) : nat :=
  (List.length (List.filter is_Start (todo gr)) + if awaiting (pc gr) then 1 else 0)%nat.

Definition pending (pool : list Goroutine) : nat := sum_list_with starts_left pool.

(** A [Stop] that has read the flag as true and is about to close the
    channel still finds the flag true. *)
Definition closing_inv (w : World) : Prop :=
  ∀ g gr, pool w !! g = Some gr → pc gr = StopClose → isRunnig (mon w) = true.

(** With at most one call of [Start]: before its assignment the flag is
    false and the channel open; and a closed channel with the flag still set
    means that a [Stop] stands right after its [close]. *)
Definition once_inv (cfg : config.Config) (w : World) : Prop :=
  monitor.config (mon w) = cfg
  ∧ stopChan (mon w) = 0%nat
  ∧ (∃ b, chans w = [b])
  ∧ (pending (pool w) ≤ 1)%nat
  ∧ (pending (pool w) = 1%nat → isRunnig (mon w) = false ∧ chans w = [false])
  ∧ (chans w = [true] → isRunnig (mon w) = true →
     ∃ g gr, pool w !! g = Some gr ∧ pc gr = StopClear).

End once.

(** ** One scan at a time *)

Module sequential.
Import monitor runtime discipline once.

(** Inside [scanDirectory]. *)
Definition in_scan (p : Pc) : bool :=
  match p with StartScan _ | LoopScan _ => true | _ => false end.

(** Running [monitorLoop]. *)
Definition in_loop (p : Pc) : bool :=
  match p with LoopNewTicker | LoopSelect | LoopScan _ => true | _ => false end.

Definition loop_weight (gr : Goroutine) : nat := if in_loop (pc gr) then 1%nat else 0%nat.

Definition loops (pool : list Goroutine) : nat := sum_list_with loop_weight pool.

(** The calls of [Start] not yet finished, and the loops they launched,
    are never more than the calls of [Start] the program makes; every
    running loop was launched. *)
Definition budget_inv (w : World) : Prop :=
  (pending (pool w) + in_flight (pool w) + spawned w ≤ 1)%nat
  ∧ (loops (pool w) ≤ spawned w)%nat.

End sequential.

(** ** Sample logger calls *)

Module sample_log.
Import config logger.

Definition quiet_env : Env :=
  {| date := "2024-01-01"; stamp := "2024-01-01 10:00:00";
     open_error := None; stat_error := None; write := WriteAll |}.

(** Settings whose log file may hold 40 bytes. *)
Definition small_log_config : Config :=
  {| WatchDir := "."; LogDir := "./logs"; CheckInterval := 5 * Second;
     MaxLogSize := 40; AutoAction := false; IgnoreExts := [".temp"; ".swp"] |}.

Definition log_path : string := "logs/file_monitor_2024-01-01.log".

(** The logger [NewLogger] gives on an empty disk. *)
Definition new_logger : Logger :=
  {| config := small_log_config;
     file := Some {| name := log_path; closed := false |};
     mu := false; currentSize := 0 |}.

Definition new_disk : gmap string string := {[ log_path := "" ]}.

End sample_log.

(** * Properties *)

(** ** Path functions and configuration on examples *)

Example Ext_txt : filepath.Ext "dir.d/a.txt" = ".txt".
Proof. reflexivity. Qed.
Example Ext_none : filepath.Ext "dir.d/Makefile" = "".
Proof. reflexivity. Qed.
Example Clean_dot_logs : filepath.Clean "./logs" = "logs".
Proof. reflexivity. Qed.
Example Clean_rooted : filepath.Clean "/a//b/./c/../../d/" = "/a/d".
Proof. reflexivity. Qed.
Example Clean_dotdots : filepath.Clean "../../a/../.." = "../../..".
Proof. reflexivity. Qed.
Example Clean_root_dotdot : filepath.Clean "/../a" = "/a".
Proof. reflexivity. Qed.
Example Clean_empty : filepath.Clean "" = ".".
Proof. reflexivity. Qed.
Example Clean_up_from_root : filepath.Clean "/.." = "/".
Proof. reflexivity. Qed.
Example Clean_back_to_dot : filepath.Clean "a/b/../.." = ".".
Proof. reflexivity. Qed.
Example Clean_trailing : filepath.Clean "./" = ".".
Proof. reflexivity. Qed.
Example Join_empty_dir : filepath.Join "" "b" = "b".
Proof. reflexivity. Qed.
Example Join_dot : filepath.Join "." "logs" = "logs".
Proof. reflexivity. Qed.
Example Join_abs : filepath.Join "/srv/data" "logs" = "/srv/data/logs".
Proof. reflexivity. Qed.

Example LoadConfig_default_dirs :
  config.WatchDir (config.LoadConfig config.no_env) = "."
  ∧ config.LogDir (config.LoadConfig config.no_env) = "./logs"
  ∧ config.IgnoreExts (config.LoadConfig config.no_env) = [".temp"; ".swp"]
  ∧ config.CheckInterval (config.LoadConfig config.no_env) = 5000000000.
Proof. repeat split; reflexivity. Qed.

(** ** Counting logger calls *)

Section counting.
Import monitor observe.

Lemma occurrences_nil c : occurrences c [] = 0%nat.
Proof. reflexivity. Qed.

Lemma occurrences_cons c x l :
  occurrences c (x :: l) = ((if decide (x = c) then 1 else 0) + occurrences c l)%nat.
Proof.
  unfold occurrences. rewrite filter_cons. destruct (decide (x = c)); reflexivity.
Qed.

Lemma occurrences_app c l1 l2 :
  occurrences c (l1 ++ l2) = (occurrences c l1 + occurrences c l2)%nat.
Proof. unfold occurrences. rewrite filter_app, length_app. reflexivity. Qed.

Lemma occurrences_pos_elem_of c l : c ∈ l ↔ (0 < occurrences c l)%nat.
Proof.
  induction l as [|x l IH].
  - rewrite occurrences_nil. split; [intros H; inversion H | lia].
  - rewrite occurrences_cons, elem_of_cons, IH.
    destruct (decide (x = c)); split; intros; try lia; auto.
    + destruct H; [congruence | lia].
Qed.

Lemma occurrences_flat_map_perm {A} c (f : A → list LoggerCall) l1 l2 :
  l1 ≡ₚ l2 →
  occurrences c (flat_map f l1) = occurrences c (flat_map f l2).
Proof.
  induction 1; simpl; rewrite ?occurrences_app; lia.
Qed.

Lemma occurrences_flat_map_const {A} c (f : A → list LoggerCall) l k :
  (∀ x, occurrences c (f x) = k) →
  occurrences c (flat_map f l) = (List.length l * k)%nat.
Proof.
  intros Hf. induction l as [|x l IH]; simpl; [reflexivity|].
  rewrite occurrences_app, Hf, IH. lia.
Qed.

(** Over the entries of a map, a function that only speaks of the key [p]
    is counted at [p] alone. *)
Lemma occurrences_flat_map_key c (f : string * FileInfo → list LoggerCall)
      (p : string) (m : gmap string FileInfo) :
  (∀ k v, k ≠ p → occurrences c (f (k, v)) = 0%nat) →
  occurrences c (flat_map f (map_to_list m))
  = match m !! p with
    | Some v => occurrences c (f (p, v))
    | None => 0%nat
    end.
Proof.
  intros Hf. induction m as [|k v m Hk IH] using map_ind.
  - rewrite map_to_list_empty, lookup_empty. reflexivity.
  - rewrite (occurrences_flat_map_perm c f _ _ (map_to_list_insert m k v Hk)).
    simpl. rewrite occurrences_app, IH.
    destruct (decide (k = p)) as [->|Hne].
    + rewrite lookup_insert_eq, Hk. lia.
    + rewrite lookup_insert_ne by done. rewrite (Hf k v Hne). lia.
Qed.

End counting.

(** ** detectChanges *)

Section detectChanges.
Import monitor observe.

Implicit Types oldFiles newFiles : gmap string FileInfo.

(** The inner loop logs [EXCLUÍDO] once for a path of [oldFiles] that
    [newFiles] lacks, and never for another path. *)
Lemma deletions_count oldFiles newFiles p :
  occurrences (LogEvent EXCLUIDO p) (deletions (map_to_list oldFiles) newFiles)
  = match oldFiles !! p, newFiles !! p with
    | Some _, None => 1%nat
    | _, _ => 0%nat
    end.
Proof.
  unfold deletions.
  rewrite (occurrences_flat_map_key _ _ p).
  - destruct (oldFiles !! p); [|reflexivity].
    destruct (newFiles !! p); [reflexivity|].
    rewrite occurrences_cons, occurrences_nil.
    destruct (decide _); [reflexivity | congruence].
  - intros k v Hk. destruct (newFiles !! k); [reflexivity|].
    rewrite occurrences_cons, occurrences_nil.
    destruct (decide _) as [Heq|]; [congruence | reflexivity].
Qed.


Lemma detectChanges_iter_eq oldFiles newFiles path newInfo :
  detectChanges_iter oldFiles newFiles (path, newInfo)
  = verdict oldFiles path newInfo ++ deletions (map_to_list oldFiles) newFiles.
Proof. reflexivity. Qed.


Lemma verdict_not_EXCLUIDO oldFiles k v p :
  occurrences (LogEvent EXCLUIDO p) (verdict oldFiles k v) = 0%nat.
Proof.
  unfold verdict. destruct (oldFiles !! k) as [o|].
  - destruct (modified v o); [|reflexivity].
    rewrite occurrences_cons, occurrences_nil.
    destruct (decide _) as [Heq|]; [discriminate Heq | reflexivity].
  - rewrite occurrences_cons, occurrences_nil.
    destruct (decide _) as [Heq|]; [discriminate Heq | reflexivity].
Qed.


(** The number of [EXCLUÍDO] calls for a path: the inner loop runs once
    per entry of [newFiles]. *)
Lemma detectChanges_in_deleted_count order oldFiles newFiles p :
  order ≡ₚ map_to_list newFiles →
  occurrences (LogEvent EXCLUIDO p) (detectChanges_in order oldFiles newFiles)
  = match oldFiles !! p, newFiles !! p with
    | Some _, None => size newFiles
    | _, _ => 0%nat
    end.
Proof.
  intros Hperm. unfold detectChanges_in.
  rewrite (occurrences_flat_map_perm _ _ _ _ Hperm).
  rewrite (occurrences_flat_map_const _ _ _
             (occurrences (LogEvent EXCLUIDO p)
                          (deletions (map_to_list oldFiles) newFiles))).
  - rewrite deletions_count, length_map_to_list.
    destruct (oldFiles !! p); [|lia]. destruct (newFiles !! p); lia.
  - intros [k v]. rewrite detectChanges_iter_eq, occurrences_app.
    rewrite verdict_not_EXCLUIDO. reflexivity.
Qed.


End detectChanges.

(** ** filepath.Walk under the scan's function *)

Section walking.
Import config monitor observe.

(** Induction over a tree, the children of a directory included. *)
Lemma Node_nested_ind (P : Node → Prop) :
  (∀ sz mt, P (File sz mt)) →
  (∀ sz mt children, Forall (λ nc, P nc.2) children → P (Dir sz mt children)) →
  (∀ sz mt e, P (DirUnreadable sz mt e)) →
  (∀ e, P (NoStat e)) →
  ∀ n, P n.
Proof.
  intros HFile HDir HUnreadable HNoStat.
  fix IH 1. intros [sz mt|sz mt children|sz mt e|e].
  - apply HFile.
  - apply HDir. induction children as [|[name c] rest IHrest].
    + constructor.
    + constructor; [exact (IH c) | exact IHrest].
  - apply HUnreadable.
  - apply HNoStat.
Qed.

Lemma walk_Dir {S} (walkFn : @WalkFunc S) path sz mt children st :
  walk walkFn path (Dir sz mt children) st
  = let '(st1, err1) :=
      walkFn path (Visited {| st_size := sz; st_mtime := mt; st_isdir := true |}) st in
    match err1 with
    | Some e => (st1, Some e)
    | None => walk_names walkFn path children st1
    end.
Proof.
  simpl. destruct (walkFn path _ st) as [st1 [e|]]; [reflexivity|].
  revert st1. induction children as [|[name c] rest IH]; intros st1; [reflexivity|].
  cbn [walk_names]. destruct c; repeat case_match; auto.
Qed.

(** One turn of the loop over the names, whatever the child is. *)
Lemma walk_names_cons {S} (walkFn : @WalkFunc S) path name c rest st :
  walk_names walkFn path ((name, c) :: rest) st
  = let '(st', r) := walk walkFn (filepath.Join path name) c st in
    match r with
    | Some err =>
        if match c with
           | NoStat _ => negb (is_SkipDir err)
           | _ => negb (isDir c) || negb (is_SkipDir err)
           end
        then (st', Some err)
        else walk_names walkFn path rest st'
    | None => walk_names walkFn path rest st'
    end.
Proof.
  destruct c; try reflexivity.
  cbn [walk_names walk]. destruct (walkFn _ _ st) as [st' [e|]]; [|reflexivity].
  destruct (is_SkipDir e); reflexivity.
Qed.

Lemma first_error_Dir logDir path sz mt children :
  first_error logDir path (Dir sz mt children)
  = if String.eqb path logDir then None else first_error_names logDir path children.
Proof.
  simpl. destruct (String.eqb path logDir); [reflexivity|].
  induction children as [|[name c] rest IH]; [reflexivity|].
  simpl. destruct (first_error logDir _ c); [reflexivity | exact IH].
Qed.

Variable cfg : Config.

Lemma walk_scanVisit_outcome n :
  ∀ path cur,
    outcome_matches n (first_error (LogDir cfg) path n)
                    (walk (scanVisit cfg) path n cur).2.
Proof.
  induction n as [sz mt|sz mt children IH|sz mt e|e] using Node_nested_ind;
    intros path cur.
  - simpl. destruct (shouldIgnore cfg path); simpl; auto.
  - rewrite walk_Dir, first_error_Dir. simpl.
    destruct (String.eqb path (LogDir cfg)); simpl; [auto|].
    generalize (<[path:={| Path := path; Size := sz; ModTime := mt; Hash := "";
                           IsDir := true |}]> cur).
    induction children as [|[name c] rest IHrest]; intros st; [simpl; auto|].
    inversion IH as [|? ? Hc Hrest]; subst.
    specialize (IHrest Hrest).
    specialize (Hc (filepath.Join path name) st). cbn [snd] in Hc.
    cbn [walk_names first_error_names].
    destruct (walk (scanVisit cfg) (filepath.Join path name) c st) as [st' r] eqn:Hw.
    cbn [snd] in Hc.
    destruct (first_error (LogDir cfg) (filepath.Join path name) c) as [msg|] eqn:Hfe;
      cbn [outcome_matches] in Hc.
    + subst r. destruct c; simplify_eq/=; reflexivity.
    + destruct Hc as [->|[-> Hd]].
      * destruct c; simplify_eq/=; apply IHrest.
      * destruct c; simplify_eq/=; apply IHrest.
  - simpl. reflexivity.
  - simpl. reflexivity.
Qed.

Lemma Walk_scanVisit_outcome fs cur :
  (Walk (scanVisit cfg) (WatchDir cfg) fs cur).2
  = PathError <$> first_error (LogDir cfg) (WatchDir cfg) fs.
Proof.
  unfold Walk.
  pose proof (walk_scanVisit_outcome fs (WatchDir cfg) cur) as H.
  destruct (walk (scanVisit cfg) (WatchDir cfg) fs cur) as [st r].
  destruct (first_error _ _ fs) as [msg|]; simpl in *.
  - subst r. reflexivity.
  - destruct H as [->|[-> _]]; reflexivity.
Qed.

End walking.

Section walk_invariants.
Import config monitor observe.

Context {S : Type} (walkFn : @WalkFunc S) (I : S → Prop).
Hypothesis walkFn_keeps : ∀ path v st, I st → I (walkFn path v st).1.

(** What every call of the function preserves, the walk preserves. *)
Lemma walk_invariant n : ∀ path st, I st → I (walk walkFn path n st).1.
Proof.
  induction n as [sz mt|sz mt children IH|sz mt e|e] using Node_nested_ind;
    intros path st Hst; try (simpl; apply walkFn_keeps; exact Hst).
  rewrite walk_Dir.
  pose proof (walkFn_keeps path
                (Visited {| st_size := sz; st_mtime := mt; st_isdir := true |})
                st Hst) as H1.
  destruct (walkFn path _ st) as [st1 [e|]]; [exact H1|].
  simpl in H1. revert st1 H1.
  induction children as [|[name c] rest IHrest]; intros st1 H1; [exact H1|].
  inversion IH as [|? ? Hc Hrest]; subst.
  specialize (IHrest Hrest).
  pose proof (Hc (filepath.Join path name) st1 H1) as Hc1.
  rewrite walk_names_cons.
  simpl in Hc1.
  destruct (walk walkFn (filepath.Join path name) c st1) as [st' [err|]];
    simpl in Hc1; [|auto].
  match goal with |- context [if ?b then _ else _] => destruct b end; auto.
Qed.

Lemma Walk_invariant root fs st : I st → I (Walk walkFn root fs st).1.
Proof.
  intros Hst. unfold Walk.
  pose proof (walk_invariant fs root st Hst) as H.
  destruct (walk walkFn root fs st) as [st' [e|]]; [|exact H].
  destruct (_ || _); exact H.
Qed.

End walk_invariants.

Section scanning.
Import config monitor observe.

Lemma scanVisit_hashes cfg path v cur :
  hashes_empty cur → hashes_empty (scanVisit cfg path v cur).1.
Proof.
  intros Hcur. destruct v as [info|info err]; simpl; [|exact Hcur].
  repeat case_match; simpl; try exact Hcur.
  apply map_Forall_insert_2; [reflexivity | exact Hcur].
Qed.

Lemma Walk_scanVisit_hashes cfg root fs :
  hashes_empty (Walk (scanVisit cfg) root fs ∅).1.
Proof.
  apply Walk_invariant.
  - intros path v st. apply scanVisit_hashes.
  - apply map_Forall_empty.
Qed.


(** A scan in which no entry fails: the events of the diff, then the
    swap. *)
Lemma scanDirectory_succeeds fs m :
  first_error (LogDir (monitor.config m)) (WatchDir (monitor.config m)) fs = None →
  let currentFiles :=
    (Walk (scanVisit (monitor.config m)) (WatchDir (monitor.config m)) fs ∅).1 in
  scanDirectory fs m
  = (set_files currentFiles
       (set_logger (logger m ++ detectChanges (files m) currentFiles) m),
     None).
Proof.
  intros Hfe. unfold scanDirectory.
  pose proof (Walk_scanVisit_outcome (monitor.config m) fs ∅) as Hw.
  rewrite Hfe in Hw.
  destruct (Walk _ _ fs ∅) as [cur r]. simpl in Hw. subst r. reflexivity.
Qed.

Lemma scanDirectory_config fs m :
  monitor.config (scanDirectory fs m).1 = monitor.config m.
Proof.
  unfold scanDirectory. destruct (Walk _ _ fs ∅) as [cur [e|]]; reflexivity.
Qed.

Lemma scanDirectory_hashes fs m :
  hashes_empty (files m) → hashes_empty (files (scanDirectory fs m).1).
Proof.
  intros Hm. unfold scanDirectory.
  pose proof (Walk_scanVisit_hashes (monitor.config m) (WatchDir (monitor.config m)) fs) as Hw.
  destruct (Walk _ _ fs ∅) as [cur [e|]]; simpl in *; [exact Hm | exact Hw].
Qed.

Lemma scans_hashes trees : ∀ m,
  hashes_empty (files m) → hashes_empty (files (scans trees m)).
Proof.
  induction trees as [|fs trees IH]; intros m Hm; [exact Hm|].
  simpl. apply IH. apply scanDirectory_hashes. exact Hm.
Qed.

End scanning.

(** ** The claims about one scan *)

Section scan_claims.
Import config monitor observe sample.

(** The number of [EXCLUÍDO] calls of a whole scan, for a path that the
    tree has lost: the size of the new snapshot. *)
Lemma scanDirectory_deleted_count fs m m' p :
  scanDirectory fs m = (m', None) →
  is_Some (files m !! p) →
  files m' !! p = None →
  occurrences (LogEvent EXCLUIDO p) (logger m')
  = (occurrences (LogEvent EXCLUIDO p) (logger m) + size (files m'))%nat.
Proof.
  intros Hscan [old Hold] Hnew. unfold scanDirectory in Hscan.
  destruct (Walk _ _ fs ∅) as [cur [e|]]; [discriminate Hscan|].
  inversion Hscan; subst m'; clear Hscan. simpl in *.
  rewrite occurrences_app. unfold detectChanges.
  rewrite detectChanges_in_deleted_count by reflexivity.
  rewrite Hold, Hnew. reflexivity.
Qed.

(** C1 (the code departs from the claim): the deletion pass sits inside
    the loop over the new snapshot.  With an empty new snapshot no
    [EXCLUÍDO] is logged for a lost path; when [b.txt] disappears from a
    root that still holds [a.txt], the scan logs [EXCLUÍDO b.txt] twice,
    once for each of the two entries of the new snapshot. *)
Theorem C1_deleted_logged_once_per_new_entry :
  detectChanges {["b.txt" := info_b]} ∅ = []
  ∧ files (scanDirectory tree_a_b fresh).1 !! "b.txt" = Some info_b
  ∧ (scanDirectory tree_a (scanDirectory tree_a_b fresh).1).2 = None
  ∧ files (scanDirectory tree_a (scanDirectory tree_a_b fresh).1).1 !! "b.txt" = None
  ∧ occurrences (LogEvent EXCLUIDO "b.txt")
      (logger (scanDirectory tree_a (scanDirectory tree_a_b fresh).1).1) = 2%nat.
Proof. vm_compute. repeat split; reflexivity. Qed.





End scan_claims.

Section scan_claims_walk.
Import config monitor observe sample.

(** A directory met under the very path [LogDir] is left out with all
    that is below it: the function returns [SkipDir] and records
    nothing. *)
Lemma walk_prunes_LogDir cfg sz mt children cur :
  walk (scanVisit cfg) (LogDir cfg) (Dir sz mt children) cur = (cur, Some SkipDir).
Proof.
  rewrite walk_Dir. simpl. rewrite String.eqb_refl. reflexivity.
Qed.

Lemma walk_names_skips_LogDir cfg path name sz mt children rest cur :
  filepath.Join path name = LogDir cfg →
  walk_names (scanVisit cfg) path ((name, Dir sz mt children) :: rest) cur
  = walk_names (scanVisit cfg) path rest cur.
Proof.
  intros Hjoin. rewrite walk_names_cons, Hjoin, walk_prunes_LogDir. reflexivity.
Qed.

(** When [LogDir] is spelled as the walk spells the directory, its
    subtree is pruned and the sibling is recorded. *)
Example scan_prunes_plain_logs :
  dom (Walk (scanVisit plain_logs_config) "." tree_with_logs ∅).1
  = {["."; "a.txt"]}.
Proof. vm_compute. reflexivity. Qed.

(** A failure below a pruned log directory is never met: the scan
    succeeds. *)
Example scan_misses_failure_below_pruned_logs :
  first_error (LogDir plain_logs_config) (WatchDir plain_logs_config) tree_broken_logs = None
  ∧ (Walk (scanVisit plain_logs_config) "." tree_broken_logs ∅).2 = None
  ∧ first_error (LogDir default_config) (WatchDir default_config) tree_broken_logs
    = Some "lstat logs/x.log: permission denied".
Proof. vm_compute. repeat split; reflexivity. Qed.

(** C7 (the code departs from the claim): under the default settings the
    walk of ["."] reaches the log directory under the path ["logs"],
    which is not the string ["./logs"] of [LogDir]; the directory is not
    pruned: it and the log file below it are recorded and logged
    [CRIADO], and a later growth of the log file is logged
    [MODIFICADO]. *)
Theorem C7_default_log_directory_not_pruned :
  WatchDir default_config = "."
  ∧ LogDir default_config = "./logs"
  ∧ filepath.Join (WatchDir default_config) "logs" = "logs"
  ∧ dom (files (scanDirectory tree_with_logs fresh).1)
    = {["."; "a.txt"; "logs"; "logs/file_monitor_2024-01-01.log"]}
  ∧ LogEvent CRIADO "logs/file_monitor_2024-01-01.log"
      ∈ logger (scanDirectory tree_with_logs fresh).1
  ∧ LogEvent MODIFICADO "logs/file_monitor_2024-01-01.log"
      ∈ logger (scanDirectory
                  (Dir 4096 100
                       [("a.txt", File 10 100);
                        ("logs", Dir 4096 100
                                   [("file_monitor_2024-01-01.log", File 480 105)])])
                  (scanDirectory tree_with_logs fresh).1).1.
Proof.
  split; [reflexivity|]. split; [reflexivity|]. split; [reflexivity|].
  split; [vm_compute; reflexivity|].
  split; apply occurrences_pos_elem_of; vm_compute; lia.
Qed.



(** C10: whatever scans a monitor has gone through since it was made,
    every entry of its snapshot has an empty fingerprint, and so has every
    entry the next walk records; the test of [detectChanges] on two such
    entries is the test on size and modification time alone. *)
Theorem C10_fingerprints_always_empty cfg log chans trees fs :
  let m := scans trees (NewFileMonitor cfg log chans).1 in
  let currentFiles :=
    (Walk (scanVisit (monitor.config m)) (WatchDir (monitor.config m)) fs ∅).1 in
  hashes_empty (files m)
  ∧ hashes_empty currentFiles
  ∧ ∀ p newInfo oldInfo,
      currentFiles !! p = Some newInfo →
      files m !! p = Some oldInfo →
      Hash newInfo = "" ∧ Hash oldInfo = ""
      ∧ modified newInfo oldInfo
        = negb (IsDir newInfo)
          && (negb (Size newInfo =? Size oldInfo)
              || negb (ModTime newInfo =? ModTime oldInfo)).
Proof.
  intros m currentFiles.
  assert (Hm : hashes_empty (files m)).
  { apply scans_hashes. simpl. apply map_Forall_empty. }
  assert (Hcur : hashes_empty currentFiles) by apply Walk_scanVisit_hashes.
  split; [exact Hm|]. split; [exact Hcur|].
  intros p newInfo oldInfo Hnew Hold.
  pose proof (Hcur p newInfo Hnew) as Hn. pose proof (Hm p oldInfo Hold) as Ho.
  simpl in Hn, Ho. repeat split; [exact Hn | exact Ho |].
  unfold modified. rewrite Hn. simpl. rewrite orb_false_r. reflexivity.
Qed.

Lemma C10_fingerprints_always_empty_witness :
  Hash info_b = "" ∧ Hash info_b = ""
  ∧ modified info_b info_b
    = negb (IsDir info_b)
      && (negb (Size info_b =? Size info_b) || negb (ModTime info_b =? ModTime info_b)).
Proof.
  apply (proj2 (proj2 (C10_fingerprints_always_empty
                         default_config [] [] [tree_a_b] tree_a_b)) "b.txt").
  - vm_compute. reflexivity.
  - vm_compute. reflexivity.
Defined.

End scan_claims_walk.

(** ** Goroutines: what one statement does *)

Section statements.
Import config monitor runtime discipline.

Lemma holding_ret r gr : holding (pc (ret r gr)) = false.
Proof. unfold ret. destruct (todo gr) as [|[] rest]; reflexivity. Qed.

Lemma committed_ret r gr : committed (pc (ret r gr)) = false.
Proof. unfold ret. destruct (todo gr) as [|[] rest]; reflexivity. Qed.



Lemma mutex_unlock w : mutex (unlock w) = None.
Proof. unfold unlock. destruct (mutex w) eqn:E; simpl; [reflexivity | exact E]. Qed.

Lemma mon_unlock w : mon (unlock w) = mon w.
Proof. unfold unlock. destruct (mutex w); reflexivity. Qed.

Lemma pool_unlock w : pool (unlock w) = pool w.
Proof. unfold unlock. destruct (mutex w); reflexivity. Qed.

Lemma spawned_unlock w : spawned (unlock w) = spawned w.
Proof. unfold unlock. destruct (mutex w); reflexivity. Qed.

Lemma chans_unlock w : chans (unlock w) = chans w.
Proof. unfold unlock. destruct (mutex w); reflexivity. Qed.

(** Splitting on the statement a goroutine is about to run. *)
Ltac statement H :=
  unfold exec, scan_step, lock in H;
  repeat (simplify_eq/=;
          match type of H with
          | context [match ?x with _ => _ end] => destruct x eqn:?
          end);
  simplify_eq/=.

(** The lock: a statement takes it when free, releases it, or leaves it
    alone; the holder changes accordingly. *)
Lemma exec_mutex g choice gr w gr' w' :
  exec g choice gr w = Some (gr', w') →
  (mutex w' = mutex w ∧ holding (pc gr') = holding (pc gr))
  ∨ (mutex w = None ∧ mutex w' = Some g
     ∧ holding (pc gr) = false ∧ holding (pc gr') = true)
  ∨ (holding (pc gr) = true ∧ mutex w' = None ∧ holding (pc gr') = false).
Proof.
  intros H. destruct gr as [p td rs tk]. statement H;
    rewrite ?holding_ret, ?mutex_unlock;
    first [ left; split; reflexivity
          | right; left; repeat split; reflexivity
          | right; right; repeat split; reflexivity ].
Qed.

(** The pool: only [go m.monitorLoop()] adds a goroutine. *)
Lemma exec_pool g choice gr w gr' w' :
  exec g choice gr w = Some (gr', w') →
  (pool w' = pool w ∧ spawned w' = spawned w ∧ pc gr ≠ StartGo)
  ∨ (pc gr = StartGo
     ∧ pool w' = pool w ++ [{| pc := LoopNewTicker; todo := []; results := [];
                              tick := false |}]
     ∧ spawned w' = Datatypes.S (spawned w)).
Proof.
  intros H. destruct gr as [p td rs tk]. statement H;
    rewrite ?pool_unlock, ?spawned_unlock;
    first [ left; repeat split; (reflexivity || discriminate)
          | right; repeat split; reflexivity ].
Qed.

(** The flag is written only between a [Lock] and its [Unlock]. *)
Lemma exec_flag g choice gr w gr' w' :
  exec g choice gr w = Some (gr', w') →
  isRunnig (mon w') = isRunnig (mon w) ∨ holding (pc gr) = true.
Proof.
  intros H. destruct gr as [p td rs tk]. statement H;
    rewrite ?mon_unlock;
    first [ left; reflexivity | right; reflexivity ].
Qed.




End statements.

(** ** Goroutines: invariants of every schedule *)

Section schedules.
Import config monitor runtime discipline.

Lemma step_Run g choice w w2 :
  step (Run g choice) w = Some w2 →
  ∃ gr gr' w',
    pool w !! g = Some gr
    ∧ exec g choice gr w = Some (gr', w')
    ∧ w2 = set_pool (<[g := gr']> (pool w')) w'.
Proof.
  unfold step. destruct (crashed w); [discriminate|].
  destruct (pool w !! g) as [gr|] eqn:Hg; [|discriminate]. simpl.
  destruct (exec g choice gr w) as [[gr' w']|] eqn:He; [|discriminate]. simpl.
  intros [= <-]. exists gr, gr', w'. auto.
Qed.

Lemma step_Tick g w w2 :
  step (Tick g) w = Some w2 →
  ∃ gr,
    pool w !! g = Some gr
    ∧ w2 = set_pool (<[g := {| pc := pc gr; todo := todo gr;
                               results := results gr; tick := true |}]> (pool w)) w.
Proof.
  unfold step. destruct (crashed w); [discriminate|].
  destruct (pool w !! g) as [gr|] eqn:Hg; [|discriminate]. simpl.
  destruct (negb _); [discriminate|]. intros [= <-]. exists gr. auto.
Qed.

(** The goroutines after a statement of [g]: [g] itself, one that was
    there before, or the loop just launched. *)
Lemma pool_after (pool0 extra : list Goroutine) g gr gr' g2 gr2 :
  pool0 !! g = Some gr →
  <[g := gr']> (pool0 ++ extra) !! g2 = Some gr2 →
  (g2 = g ∧ gr2 = gr')
  ∨ (g2 ≠ g ∧ pool0 !! g2 = Some gr2)
  ∨ (g2 ≠ g ∧ (List.length pool0 ≤ g2)%nat ∧ gr2 ∈ extra).
Proof.
  intros Hg H2. pose proof (lookup_lt_Some _ _ _ Hg) as Hlt.
  destruct (decide (g2 = g)) as [->|Hne].
  - left. rewrite list_lookup_insert_eq in H2 by (rewrite length_app; lia).
    split; congruence.
  - right. rewrite list_lookup_insert_ne in H2 by congruence.
    destruct (decide (g2 < List.length pool0)%nat) as [Hin|Hout].
    + left. rewrite lookup_app_l in H2 by exact Hin. auto.
    + right. rewrite lookup_app_r in H2 by lia.
      repeat split; [exact Hne | lia | eapply list_elem_of_lookup_2; exact H2].
Qed.

Lemma exec_pool_app g choice gr w gr' w' :
  exec g choice gr w = Some (gr', w') →
  ∃ extra,
    pool w' = pool w ++ extra
    ∧ Forall (λ x, pc x = LoopNewTicker ∧ todo x = []) extra.
Proof.
  intros H. destruct (exec_pool _ _ _ _ _ _ H) as [(Hp & _ & _)|(_ & Hp & _)].
  - exists []. rewrite app_nil_r. split; [exact Hp | constructor].
  - eexists. split; [exact Hp|]. repeat constructor.
Qed.

Lemma mutex_inv_step l w w2 :
  step l w = Some w2 → mutex_inv w → mutex_inv w2.
Proof.
  intros Hstep [Hhold Hbound]. destruct l as [g choice|g|fs'].
  - destruct (step_Run _ _ _ _ Hstep) as (gr & gr' & w' & Hg & He & ->).
    destruct (exec_pool_app _ _ _ _ _ _ He) as (extra & Hpool & Hextra).
    pose proof (exec_mutex _ _ _ _ _ _ He) as Hm.
    pose proof (Hhold g gr Hg) as Hgr.
    pose proof (lookup_lt_Some _ _ _ Hg) as Hlt.
    split; simpl.
    + intros g2 gr2 H2. rewrite Hpool in H2.
      destruct (pool_after _ _ _ _ _ _ _ Hg H2)
        as [[-> ->]|[[Hne Hold]|(Hne & Hge & Hin)]].
      * destruct Hm as [[-> ->]|[(_ & -> & _ & ->)|(_ & -> & ->)]];
          [exact Hgr | done | done].
      * pose proof (Hhold g2 gr2 Hold) as H2'.
        destruct Hm as [[-> _]|[(Hnone & -> & _ & _)|(Hh & -> & _)]].
        -- exact H2'.
        -- rewrite Hnone in H2'. rewrite H2'. split; intros [=]; congruence.
        -- apply Hgr in Hh. rewrite Hh in H2'. rewrite H2'.
           split; intros [=]; congruence.
      * rewrite Forall_forall in Hextra. destruct (Hextra _ Hin) as [Hpc _].
        rewrite Hpc. simpl. split; [discriminate|]. intros Hmw'. exfalso.
        destruct Hm as [[Heq _]|[(_ & Heq & _ & _)|(_ & Heq & _)]];
          rewrite Heq in Hmw'; [|congruence|discriminate].
        apply Hbound in Hmw'. lia.
    + intros h Hh. rewrite length_insert, Hpool, length_app.
      destruct Hm as [[Heq _]|[(_ & Heq & _ & _)|(_ & Heq & _)]];
        rewrite Heq in Hh; [|injection Hh as <-; lia|discriminate].
      apply Hbound in Hh. lia.
  - destruct (step_Tick _ _ _ Hstep) as (gr & Hg & ->).
    pose proof (lookup_lt_Some _ _ _ Hg) as Hlt.
    split; simpl.
    + intros g2 gr2 H2. destruct (decide (g2 = g)) as [->|Hne].
      * rewrite list_lookup_insert_eq in H2 by exact Hlt.
        injection H2 as <-. simpl. apply Hhold. exact Hg.
      * rewrite list_lookup_insert_ne in H2 by congruence. apply Hhold. exact H2.
    + intros h Hh. rewrite length_insert. apply Hbound. exact Hh.
  - unfold step in Hstep. destruct (crashed w); [discriminate|].
    injection Hstep as <-. split; simpl; assumption.
Qed.


Lemma mutex_inv_init cfg tree callers : mutex_inv (init cfg tree callers).
Proof.
  split; simpl; [|discriminate].
  intros g gr Hg. rewrite list_lookup_fmap in Hg.
  destruct (callers !! g) as [calls|]; [|discriminate]. injection Hg as <-.
  destruct calls as [|[] rest]; simpl; split; discriminate.
Qed.


Lemma run_invariant (P : World → Prop) :
  (∀ l w w2, step l w = Some w2 → P w → P w2) →
  ∀ sched w w2, run sched w = Some w2 → P w → P w2.
Proof.
  intros Hstep sched. induction sched as [|l rest IH]; intros w w2 Hrun Hw.
  - injection Hrun as <-. exact Hw.
  - simpl in Hrun. destruct (step l w) as [w1|] eqn:Hl; [|discriminate].
    simpl in Hrun. eapply IH; [exact Hrun|]. eapply Hstep; eassumption.
Qed.


End schedules.

Section single_loop.
Import config monitor runtime discipline.








End single_loop.

(** ** The claims about Start, Stop and the poll loop *)

Section lifecycle_claims.
Import config monitor runtime discipline observe sample.


Lemma scanDirectory_keeps fs m :
  isRunnig (scanDirectory fs m).1 = isRunnig m
  ∧ stopChan (scanDirectory fs m).1 = stopChan m
  ∧ ((scanDirectory fs m).2 ≠ None → files (scanDirectory fs m).1 = files m).
Proof.
  unfold scanDirectory. destruct (Walk _ _ fs ∅) as [cur [e|]]; simpl; auto.
  repeat split. intros H. contradiction H. reflexivity.
Qed.

(** [Start] makes no channel: the monitor keeps the one it was built
    with. *)
Lemma Start_keeps_stopChan fs m : stopChan (Start fs m).1.1 = stopChan m.
Proof.
  unfold Start. destruct (isRunnig m); [reflexivity|].
  pose proof (scanDirectory_keeps fs (set_isRunnig true m)) as (_ & Hc & _).
  destruct (scanDirectory fs (set_isRunnig true m)) as [m1 [e|]]; simpl in *; exact Hc.
Qed.

(** C2 (the code departs from the claim): the only [make(chan struct{})]
    is in [NewFileMonitor].  After Start, Stop, Start the monitor still
    holds channel 0, already closed, and is marked running; the loop of
    the second Start (goroutine 2) makes its ticker and leaves at its first
    [select]; the
    second Stop closes the closed channel and the program panics. *)
Theorem C2_restart_reuses_closed_stop_channel :
  stopChan (mon restart_program) = 0%nat
  ∧ (λ w, (stopChan (mon w), summary w)) <$> run (alone 0 31) restart_program
    = Some (0%nat,
            ([StopLock; LoopNewTicker; LoopNewTicker], [[None; None; None]; []; []],
             true, [true], 2%nat, false))
  ∧ summary <$> run (alone 0 31 ++ alone 2 2) restart_program
    = Some ([StopLock; LoopNewTicker; Exit], [[None; None; None]; []; []],
            true, [true], 2%nat, false)
  ∧ summary <$> run (alone 0 34) restart_program
    = Some ([Exit; LoopNewTicker; LoopNewTicker], [[None; None; None]; []; []],
            true, [true], 2%nat, true)
  ∧ (let '(m0, chans0) := NewFileMonitor default_config [] [] in
     let m1 := (Start tree_a_b m0).1.1 in
     match Stop m1 chans0 with
     | Some (m2, chans2) =>
         let m3 := (Start tree_a_b m2).1.1 in
         stopChan m3 = stopChan m0
         ∧ chan_closed (stopChan m3) chans2 = true
         ∧ isRunnig m3 = true
         ∧ Stop m3 chans2 = None
     | None => False
     end).
Proof. vm_compute. repeat split; reflexivity. Qed.

(** C4: when the scan made inside [Start] fails, [Start] returns that
    error, does not execute [go m.monitorLoop()], and leaves the monitor
    not running, with the snapshot and the stop channel it had. *)
Theorem C4_failed_initial_scan_rolls_back fs m m1 e :
  isRunnig m = false →
  scanDirectory fs (set_isRunnig true m) = (m1, Some e) →
  ∃ m',
    Start fs m = (m', Some e, false)
    ∧ isRunnig m' = false
    ∧ isRunnig m' = isRunnig m
    ∧ files m' = files m
    ∧ stopChan m' = stopChan m
    ∧ monitor.config m' = monitor.config m.
Proof.
  intros Hrun Hscan. exists (set_isRunnig false m1).
  pose proof (scanDirectory_keeps fs (set_isRunnig true m)) as (_ & Hc & Hf).
  pose proof (scanDirectory_config fs (set_isRunnig true m)) as Hcfg.
  rewrite Hscan in Hc, Hf, Hcfg. simpl in *.
  unfold Start. rewrite Hrun, Hscan. simpl.
  repeat split; auto.
Qed.

Lemma C4_failed_initial_scan_rolls_back_witness :
  ∃ m',
    Start tree_broken fresh
    = (m', Some (PathError "lstat gone.txt: no such file or directory"), false)
    ∧ isRunnig m' = false
    ∧ isRunnig m' = isRunnig fresh
    ∧ files m' = files fresh
    ∧ stopChan m' = stopChan fresh
    ∧ monitor.config m' = monitor.config fresh.
Proof.
  apply (C4_failed_initial_scan_rolls_back tree_broken fresh
           (scanDirectory tree_broken (set_isRunnig true fresh)).1).
  - reflexivity.
  - vm_compute. reflexivity.
Defined.




End lifecycle_claims.

Section guard_claim.
Import config monitor runtime discipline observe sample.





(** Two callers of [Start], the second one entering while the first is
    still scanning: the first launches the loop, the second gets the
    error. *)
Example two_starters_interleaved :
  summary <$> run (alone 0 7 ++ alone 1 3 ++ alone 0 6) two_starters
  = Some ([Exit; Exit; LoopNewTicker], [[None]; [Some AlreadyRunning]; []],
          true, [false], 1%nat, false).
Proof. vm_compute. reflexivity. Qed.

End guard_claim.

(** ** Start and Stop as functions agree with their statements *)

Section alone.
Import config monitor runtime discipline observe sample.

(** Runs the first label of the schedule and puts the world back in
    normal form. *)
Ltac run_one :=
  lazymatch goal with
  | |- context [run (?l :: ?r) ?w] =>
      let s := eval cbn -[Walk detectChanges] in (step l w) in
      let s := eval cbv beta iota delta
                 [set_pool set_mutex set_mon set_fs set_chans set_crashed
                  go_monitorLoop set_pc unlock lock
                  mon mutex chans fs pool spawned crashed pc todo results tick
                  set_logger set_files set_isRunnig
                  monitor.config logger files isRunnig stopChan] in s in
      change (run (l :: r) w) with (s ≫= run r);
      cbn [mbind option_bind]
  end.

(** A lone caller of [Start]: running its statements one after the other
    gives the monitor, the result and the launch that [Start] computes. *)
Lemma Start_alone m tree n0 rest :
  let w := {| mon := m; mutex := None; chans := [false]; fs := tree;
              pool := [caller (CallStart :: rest)]; spawned := n0;
              crashed := false |} in
  ∃ n w',
    run (alone 0 n) w = Some w'
    ∧ mon w' = (Start tree m).1.1
    ∧ results <$> pool w' !! 0%nat = Some [(Start tree m).1.2]
    ∧ spawned w' = (n0 + if (Start tree m).2 then 1 else 0)%nat
    ∧ mutex w' = None
    ∧ crashed w' = false.
Proof.
  intros w. subst w. unfold Start, scanDirectory.
  destruct m as [cfg lg fl running ch]. destruct running.
  - exists 3%nat. eexists. split.
    + unfold alone. cbn [replicate caller entry]. do 3 run_one. reflexivity.
    + cbn. repeat split; try reflexivity; try lia. destruct rest; reflexivity.
  - cbn [isRunnig set_isRunnig monitor.config files logger].
    destruct (Walk (scanVisit cfg) (WatchDir cfg) tree ∅) as [cur [e|]] eqn:Hw.
    + exists 12%nat. eexists. split.
      * unfold alone. cbn [replicate caller entry]. do 8 run_one.
        rewrite Hw. cbn [mbind option_bind]. do 4 run_one. reflexivity.
      * cbn. repeat split; try reflexivity; try lia. destruct rest; reflexivity.
    + exists 13%nat. eexists. split.
      * unfold alone. cbn [replicate caller entry]. do 8 run_one.
        rewrite Hw. cbn [mbind option_bind]. do 5 run_one. reflexivity.
      * cbn. repeat split; try reflexivity; try lia. destruct rest; reflexivity.
Qed.

(** A lone caller of [Stop]: the monitor and the channels that [Stop]
    computes, or its panic. *)
Lemma Stop_alone m chans0 tree n0 rest :
  let w := {| mon := m; mutex := None; chans := chans0; fs := tree;
              pool := [caller (CallStop :: rest)]; spawned := n0;
              crashed := false |} in
  ∃ n w',
    run (alone 0 n) w = Some w'
    ∧ match Stop m chans0 with
      | Some (m', chans') => mon w' = m' ∧ chans w' = chans' ∧ crashed w' = false
      | None => crashed w' = true
      end.
Proof.
  intros w. subst w. unfold Stop.
  destruct m as [cfg lg fl running ch]. destruct running;
    cbn [isRunnig stopChan set_isRunnig].
  - destruct (close_chan ch chans0) as [chans'|] eqn:Hc.
    + exists 5%nat. eexists. split.
      * unfold alone. cbn [replicate caller entry]. do 3 run_one.
        rewrite Hc. cbn [mbind option_bind]. do 2 run_one. reflexivity.
      * cbn. repeat split; reflexivity.
    + exists 3%nat. eexists. split.
      * unfold alone. cbn [replicate caller entry]. do 3 run_one.
        rewrite Hc. cbn [mbind option_bind]. reflexivity.
      * reflexivity.
  - exists 3%nat. eexists. split.
    + unfold alone. cbn [replicate caller entry]. do 3 run_one. reflexivity.
    + cbn. repeat split; reflexivity.
Qed.
End alone.


(** ** The queries *)

Section queries.
Import config monitor observe snapshot.

Lemma wrap64_add_l x b : wrap64 (wrap64 x + b) = wrap64 (x + b).
Proof.
  unfold wrap64.
  replace ((x + 2 ^ 63) mod 2 ^ 64 - 2 ^ 63 + b + 2 ^ 63)
    with ((x + 2 ^ 63) mod 2 ^ 64 + b) by lia.
  rewrite Zplus_mod_idemp_l. f_equal. f_equal. lia.
Qed.

Lemma wrap64_small z : int64_min ≤ z ≤ int64_max → wrap64 z = z.
Proof.
  unfold wrap64, int64_min, int64_max. intros Hz.
  rewrite Z.mod_small by lia. lia.
Qed.

Lemma wrap64_range z : int64_min ≤ wrap64 z ≤ int64_max.
Proof.
  unfold wrap64, int64_min, int64_max.
  pose proof (Z.mod_pos_bound (z + 2 ^ 63) (2 ^ 64) ltac:(lia)). lia.
Qed.

Lemma shouldIgnore_spec cfg path :
  shouldIgnore cfg path = true ↔ filepath.Ext path ∈ IgnoreExts cfg.
Proof.
  unfold shouldIgnore. rewrite existsb_exists. split.
  - intros (x & Hin & Heq). apply String.eqb_eq in Heq. subst x.
    apply list_elem_of_In. exact Hin.
  - intros Hin. exists (filepath.Ext path).
    split; [apply list_elem_of_In; exact Hin | apply String.eqb_refl].
Qed.

Lemma count_in_foldl order : ∀ acc,
  foldl (λ count '(_, info), if IsDir info then count else count + 1) acc order
  = acc + Z.of_nat (List.length (filter (λ kv : string * FileInfo, IsDir kv.2 = false) order)).
Proof.
  induction order as [|[k v] l IH]; intros acc; simpl; [lia|].
  rewrite IH, filter_cons.
  destruct (decide (IsDir (k, v).2 = false)) as [Hd|Hd]; simpl in Hd.
  - rewrite Hd. simpl. lia.
  - destruct (IsDir v); [lia | contradiction].
Qed.

Lemma count_foldr (l : list (string * FileInfo)) :
  foldr (uncurry (λ (_ : string) info count, if IsDir info then count else count + 1)) 0 l
  = Z.of_nat (List.length (filter (λ kv : string * FileInfo, IsDir kv.2 = false) l)).
Proof.
  induction l as [|[k v] l IH]; simpl; [reflexivity|].
  rewrite IH, filter_cons.
  destruct (decide (IsDir (k, v).2 = false)) as [Hd|Hd]; simpl in Hd.
  - rewrite Hd. simpl. lia.
  - destruct (IsDir v); [reflexivity | contradiction].
Qed.

Lemma regular_size (files : gmap string FileInfo) :
  size (regular files)
  = List.length (filter (λ kv : string * FileInfo, IsDir kv.2 = false) (map_to_list files)).
Proof.
  unfold regular. induction files as [|k v m Hk IH] using map_ind.
  - rewrite map_filter_empty, map_to_list_empty. reflexivity.
  - rewrite (Permutation_length (filter_Permutation _ _ _ (map_to_list_insert m k v Hk))).
    rewrite filter_cons. simpl. destruct (decide (IsDir v = false)) as [Hv|Hv].
    + rewrite map_filter_insert_True by exact Hv.
      rewrite map_size_insert_None; [simpl; rewrite IH; reflexivity|].
      apply map_lookup_filter_None. left. exact Hk.
    + rewrite map_filter_insert_False by exact Hv.
      rewrite delete_id by exact Hk. exact IH.
Qed.

Lemma total_in_foldl order : ∀ acc,
  wrap64 (foldl (λ total '(_, info),
                   if IsDir info then total else wrap64 (total + Size info)) acc order)
  = wrap64 (acc + sizes_sum order).
Proof.
  induction order as [|[k v] l IH]; intros acc; simpl.
  - f_equal. lia.
  - rewrite IH. destruct (IsDir v).
    + reflexivity.
    + rewrite wrap64_add_l. f_equal. lia.
Qed.

Lemma total_foldr (l : list (string * FileInfo)) :
  foldr (uncurry (λ (_ : string) info total,
                    if IsDir info then total else wrap64 (total + Size info))) 0 l
  = wrap64 (sizes_sum l).
Proof.
  induction l as [|[k v] l IH]; simpl; [reflexivity|].
  rewrite IH. destruct (IsDir v); [reflexivity|]. apply wrap64_add_l.
Qed.

Lemma foldl_wrapped order : ∀ acc,
  int64_min ≤ acc ≤ int64_max →
  int64_min
  ≤ foldl (λ total (kv : string * FileInfo),
             let '(_, info) := kv in
             if IsDir info then total else wrap64 (total + Size info)) acc order
  ≤ int64_max.
Proof.
  induction order as [|[k v] l IH]; intros acc Hacc; simpl; [exact Hacc|].
  apply IH. destruct (IsDir v); [exact Hacc | apply wrap64_range].
Qed.

Lemma sizes_sum_perm l1 l2 : l1 ≡ₚ l2 → sizes_sum l1 = sizes_sum l2.
Proof.
  induction 1 as [|[k v] l l' _ IH|[k1 v1] [k2 v2] l|l l' l'' _ IH1 _ IH2]; simpl.
  - reflexivity.
  - rewrite IH. reflexivity.
  - destruct (IsDir v1), (IsDir v2); lia.
  - congruence.
Qed.

Lemma sizes_sum_nonneg (l : list (string * FileInfo)) :
  (∀ kv, kv ∈ l → 0 ≤ Size kv.2) → 0 ≤ sizes_sum l.
Proof.
  induction l as [|[k v] l IH]; intros Hl; simpl; [lia|].
  assert (0 ≤ sizes_sum l) by (apply IH; intros kv Hkv; apply Hl; right; exact Hkv).
  pose proof (Hl (k, v) ltac:(left)) as Hv. simpl in Hv.
  destruct (IsDir v); lia.
Qed.

(** [GetFileCount] is the number of entries of the snapshot that are not
    directories, whatever the order in which the map is ranged over; it is
    zero for an empty snapshot and never more than the number of entries. *)
Theorem GetFileCount_counts_regular_entries m order :
  order ≡ₚ map_to_list (files m) →
  count_in order = GetFileCount m
  ∧ GetFileCount m = Z.of_nat (size (regular (files m)))
  ∧ 0 ≤ GetFileCount m ≤ Z.of_nat (size (files m)).
Proof.
  intros Hperm.
  assert (Hspec : GetFileCount m = Z.of_nat (size (regular (files m)))).
  { unfold GetFileCount. rewrite map_fold_foldr, count_foldr, regular_size. reflexivity. }
  split; [|split; [exact Hspec|]].
  - unfold count_in. rewrite count_in_foldl, Hspec, regular_size.
    rewrite (Permutation_length (filter_Permutation _ _ _ Hperm)). lia.
  - rewrite Hspec. pose proof (map_size_filter (λ kv, IsDir kv.2 = false) (files m)).
    unfold regular. lia.
Qed.

Lemma GetFileCount_counts_regular_entries_witness :
  count_in (map_to_list (files (scanDirectory sample.tree_a_b sample.fresh).1))
  = GetFileCount (scanDirectory sample.tree_a_b sample.fresh).1
  ∧ GetFileCount (scanDirectory sample.tree_a_b sample.fresh).1 = 2.
Proof.
  destruct (GetFileCount_counts_regular_entries
              (scanDirectory sample.tree_a_b sample.fresh).1
              (map_to_list (files (scanDirectory sample.tree_a_b sample.fresh).1))
              (reflexivity _)) as (H1 & H2 & _).
  split; [exact H1|]. rewrite H2. vm_compute. reflexivity.
Defined.

(** [GetTotalSize] is the sum of the sizes of the entries that are not
    directories, reduced to an [int64] once, whatever the order in which
    the map is ranged over; when no size is negative and the sum fits in an
    [int64], it is the sum itself. *)
Theorem GetTotalSize_sums_regular_entries m order :
  order ≡ₚ map_to_list (files m) →
  total_in order = GetTotalSize m
  ∧ GetTotalSize m = wrap64 (plain_total (files m))
  ∧ ((∀ p info, files m !! p = Some info → 0 ≤ Size info) →
     plain_total (files m) ≤ int64_max →
     GetTotalSize m = plain_total (files m)).
Proof.
  intros Hperm.
  assert (Hspec : GetTotalSize m = wrap64 (plain_total (files m))).
  { unfold GetTotalSize. rewrite map_fold_foldr. apply total_foldr. }
  split; [|split; [exact Hspec|]].
  - rewrite Hspec. unfold plain_total. rewrite <- (sizes_sum_perm _ _ Hperm).
    unfold total_in. rewrite <- (wrap64_small (foldl _ 0 order)).
    + rewrite total_in_foldl. f_equal.
    + apply foldl_wrapped. unfold int64_min, int64_max. lia.
  - intros Hsizes Hfits. rewrite Hspec. apply wrap64_small.
    split; [|exact Hfits].
    assert (0 ≤ plain_total (files m)); [|unfold int64_min; lia].
    apply sizes_sum_nonneg. intros [k v] Hkv. apply elem_of_map_to_list in Hkv.
    apply (Hsizes k v Hkv).
Qed.

Lemma GetTotalSize_sums_regular_entries_witness :
  total_in (map_to_list (files (scanDirectory sample.tree_a_b sample.fresh).1))
  = GetTotalSize (scanDirectory sample.tree_a_b sample.fresh).1
  ∧ GetTotalSize (scanDirectory sample.tree_a_b sample.fresh).1 = 15.
Proof.
  destruct (GetTotalSize_sums_regular_entries
              (scanDirectory sample.tree_a_b sample.fresh).1
              (map_to_list (files (scanDirectory sample.tree_a_b sample.fresh).1))
              (reflexivity _)) as (H1 & _ & H3).
  split; [exact H1|]. rewrite H3.
  - vm_compute. reflexivity.
  - intros p info Hp. apply elem_of_map_to_list in Hp.
    set (l := map_to_list _) in Hp. vm_compute in l. subst l.
    rewrite !elem_of_cons, elem_of_nil in Hp.
    destruct Hp as [Hp|[Hp|[Hp|[]]]]; injection Hp as _ ->; simpl; lia.
  - vm_compute. discriminate.
Defined.

End queries.

(** ** What a scan records and logs *)

Section names_invariant.
Import config monitor observe.

Context {S : Type} (walkFn : @WalkFunc S) (I : S → Prop).
Hypothesis walkFn_keeps : ∀ path v st, I st → I (walkFn path v st).1.

Lemma walk_names_invariant names : ∀ path st,
  I st → I (walk_names walkFn path names st).1.
Proof.
  induction names as [|[name c] rest IH]; intros path st Hst; [exact Hst|].
  rewrite walk_names_cons.
  pose proof (walk_invariant walkFn I walkFn_keeps c (filepath.Join path name) st Hst) as Hc.
  destruct (walk walkFn (filepath.Join path name) c st) as [st' [err|]];
    simpl in Hc; [|auto].
  match goal with |- context [if ?b then _ else _] => destruct b end; auto.
Qed.

End names_invariant.

Section recorded.
Import config monitor observe snapshot sample.

Lemma scanVisit_well_recorded cfg path v cur :
  map_Forall (well_recorded cfg) cur →
  map_Forall (well_recorded cfg) (scanVisit cfg path v cur).1.
Proof.
  intros Hcur. destruct v as [info|info err]; simpl; [|exact Hcur].
  destruct (st_isdir info && String.eqb path (LogDir cfg)) eqn:Hlog; [exact Hcur|].
  destruct (negb (st_isdir info) && shouldIgnore cfg path) eqn:Hign; [exact Hcur|].
  simpl. apply map_Forall_insert_2; [|exact Hcur].
  repeat split; simpl.
  - intros Hdir. rewrite Hdir in Hlog. simpl in Hlog.
    apply String.eqb_neq. exact Hlog.
  - intros Hdir. rewrite Hdir in Hign. simpl in Hign.
    rewrite <- shouldIgnore_spec. rewrite Hign. discriminate.
Qed.

Lemma scans_config trees : ∀ m, monitor.config (scans trees m) = monitor.config m.
Proof.
  induction trees as [|fs trees IH]; intros m; [reflexivity|].
  simpl. rewrite IH. apply scanDirectory_config.
Qed.

Lemma scanDirectory_well_recorded fs m :
  map_Forall (well_recorded (monitor.config m)) (files m) →
  map_Forall (well_recorded (monitor.config m)) (files (scanDirectory fs m).1).
Proof.
  intros Hm. unfold scanDirectory.
  assert (Hw : map_Forall (well_recorded (monitor.config m))
                 (Walk (scanVisit (monitor.config m)) (WatchDir (monitor.config m)) fs ∅).1).
  { apply Walk_invariant; [|apply map_Forall_empty].
    intros path v st. apply scanVisit_well_recorded. }
  destruct (Walk _ _ fs ∅) as [cur [e|]]; simpl in *; [exact Hm | exact Hw].
Qed.

(** Every entry of every snapshot, whatever scans the monitor has gone
    through, is stored under its own path, has no fingerprint, is not a
    directory stored under the string [LogDir], and is not a file whose
    extension is in the ignore list. *)
Theorem snapshot_entries_well_recorded cfg log chans trees p info :
  files (scans trees (NewFileMonitor cfg log chans).1) !! p = Some info →
  well_recorded cfg p info.
Proof.
  assert (Hgen : ∀ m, map_Forall (well_recorded (monitor.config m)) (files m) →
                      map_Forall (well_recorded (monitor.config m)) (files (scans trees m))).
  { induction trees as [|fs trees IH]; intros m Hm; [exact Hm|].
    simpl. rewrite <- (scanDirectory_config fs m). apply IH.
    rewrite scanDirectory_config. apply scanDirectory_well_recorded. exact Hm. }
  intros Hp.
  apply (Hgen (NewFileMonitor cfg log chans).1 (map_Forall_empty _) p info Hp).
Qed.

Lemma snapshot_entries_well_recorded_witness :
  well_recorded default_config "b.txt" info_b.
Proof.
  apply (snapshot_entries_well_recorded default_config [] [] [tree_a_b]).
  vm_compute. reflexivity.
Defined.

Lemma deletions_none (files : gmap string FileInfo) l :
  Forall (λ kv : string * FileInfo, files !! kv.1 = Some kv.2) l →
  deletions l files = [].
Proof.
  unfold deletions. induction 1 as [|[k v] l Hkv _ IH]; [reflexivity|].
  simpl in *. rewrite Hkv, IH. reflexivity.
Qed.

Lemma entries_present (files : gmap string FileInfo) :
  Forall (λ kv : string * FileInfo, files !! kv.1 = Some kv.2) (map_to_list files).
Proof.
  apply Forall_forall. intros [k v] Hkv. apply elem_of_map_to_list. exact Hkv.
Qed.

Lemma detectChanges_in_same (files : gmap string FileInfo) l :
  Forall (λ kv : string * FileInfo, files !! kv.1 = Some kv.2) l →
  detectChanges_in l files files = [].
Proof.
  unfold detectChanges_in. induction 1 as [|[k v] l Hkv _ IH]; [reflexivity|].
  cbn [flat_map]. rewrite IH, detectChanges_iter_eq.
  rewrite (deletions_none _ _ (entries_present files)).
  unfold verdict. simpl in Hkv. rewrite Hkv.
  unfold modified. rewrite !Z.eqb_refl, (String.eqb_refl (Hash v)).
  simpl. rewrite !andb_false_r. reflexivity.
Qed.

Lemma detectChanges_same (files : gmap string FileInfo) : detectChanges files files = [].
Proof. apply detectChanges_in_same, entries_present. Qed.

(** A second scan of a tree that has not changed logs nothing and leaves
    the monitor as the first scan left it. *)
Theorem rescan_of_unchanged_tree_is_silent fs m m1 :
  scanDirectory fs m = (m1, None) →
  scanDirectory fs m1 = (m1, None).
Proof.
  intros Hscan.
  pose proof (scanDirectory_config fs m) as Hcfg. rewrite Hscan in Hcfg. simpl in Hcfg.
  unfold scanDirectory in *. rewrite Hcfg.
  destruct (Walk _ _ fs ∅) as [cur [e|]]; [discriminate Hscan|].
  injection Hscan as <-. simpl. rewrite detectChanges_same, app_nil_r.
  reflexivity.
Qed.

Lemma rescan_of_unchanged_tree_is_silent_witness :
  scanDirectory tree_a_b (scanDirectory tree_a_b fresh).1
  = ((scanDirectory tree_a_b fresh).1, None).
Proof.
  apply (rescan_of_unchanged_tree_is_silent tree_a_b fresh).
  vm_compute. reflexivity.
Defined.



Lemma scanVisit_keeps_key cfg k path v (st : gmap string FileInfo) :
  is_Some (st !! k) → is_Some ((scanVisit cfg path v st).1 !! k).
Proof.
  intros Hst. destruct v as [info|info err]; simpl; [|exact Hst].
  repeat case_match; simpl; try exact Hst.
  rewrite lookup_insert. case_decide; [eexists; reflexivity | exact Hst].
Qed.

(** A successful scan of a root directory other than [LogDir] records the
    root itself: the snapshot holds the key [WatchDir] and is not empty. *)
Theorem scan_records_the_root sz mt children m m' :
  WatchDir (monitor.config m) ≠ LogDir (monitor.config m) →
  scanDirectory (Dir sz mt children) m = (m', None) →
  is_Some (files m' !! WatchDir (monitor.config m))
  ∧ (1 ≤ size (files m'))%nat.
Proof.
  intros Hne Hscan.
  assert (Hroot : is_Some (files m' !! WatchDir (monitor.config m))).
  { unfold scanDirectory, Walk in Hscan. rewrite walk_Dir in Hscan. simpl in Hscan.
    apply String.eqb_neq in Hne. rewrite Hne in Hscan. simpl in Hscan.
    pose proof (walk_names_invariant (scanVisit (monitor.config m))
                  (λ st, is_Some (st !! WatchDir (monitor.config m)))
                  (scanVisit_keeps_key _ _)) as Hinv.
    match type of Hscan with
    | context [walk_names _ ?path ?names ?st] =>
        specialize (Hinv names path st);
        destruct (walk_names _ path names st) as [cur [e|]]
    end; simpl in *.
    - destruct (is_SkipDir e || is_SkipAll e); simplify_eq/=.
      apply Hinv. rewrite lookup_insert_eq. eexists; reflexivity.
    - simplify_eq/=. apply Hinv. rewrite lookup_insert_eq. eexists; reflexivity. }
  split; [exact Hroot|].
  destruct Hroot as [info Hinfo].
  destruct (size (files m')) eqn:Hsize; [|lia].
  apply map_size_empty_inv in Hsize. rewrite Hsize, lookup_empty in Hinfo. discriminate.
Qed.

Lemma scan_records_the_root_witness :
  is_Some (files (scanDirectory tree_a_b fresh).1 !! WatchDir (monitor.config fresh))
  ∧ (1 ≤ size (files (scanDirectory tree_a_b fresh).1))%nat.
Proof.
  apply (scan_records_the_root 4096 100 [("a.txt", File 10 100); ("b.txt", File 5 100)]
                               fresh (scanDirectory tree_a_b fresh).1).
  - vm_compute. discriminate.
  - vm_compute. reflexivity.
Defined.

End recorded.

Section events.
Import config monitor observe snapshot sample.

(** [detectChanges] logs nothing but the three kinds of change: every call
    it makes is an event of a path that is new, of a path present on both
    sides whose entry passes the modification test, or of a path that is
    gone; whatever the order in which the new snapshot is ranged over. *)
Theorem detectChanges_only_logs_changes order oldFiles newFiles c :
  order ≡ₚ map_to_list newFiles →
  c ∈ detectChanges_in order oldFiles newFiles →
  ∃ p,
    (c = LogEvent CRIADO p ∧ oldFiles !! p = None ∧ is_Some (newFiles !! p))
    ∨ (c = LogEvent MODIFICADO p
       ∧ ∃ o n, oldFiles !! p = Some o ∧ newFiles !! p = Some n ∧ modified n o = true)
    ∨ (c = LogEvent EXCLUIDO p ∧ is_Some (oldFiles !! p) ∧ newFiles !! p = None).
Proof.
  intros Hperm Hc. unfold detectChanges_in in Hc.
  apply list_elem_of_In, in_flat_map in Hc. destruct Hc as ([k v] & Hkv & Hc).
  apply list_elem_of_In in Hkv. rewrite Hperm in Hkv. apply elem_of_map_to_list in Hkv.
  rewrite detectChanges_iter_eq in Hc. apply in_app_or in Hc. destruct Hc as [Hc|Hc].
  - exists k. unfold verdict in Hc. destruct (oldFiles !! k) as [o|] eqn:Hold.
    + destruct (modified v o) eqn:Hmod; [|destruct Hc].
      destruct Hc as [<-|[]]. right. left. split; [reflexivity|]. eauto.
    + destruct Hc as [<-|[]]. left. rewrite Hkv. eauto.
  - unfold deletions in Hc. apply in_flat_map in Hc. destruct Hc as ([k' v'] & Hkv' & Hc).
    apply list_elem_of_In, elem_of_map_to_list in Hkv'.
    exists k'. destruct (newFiles !! k') eqn:Hnew; [destruct Hc|].
    destruct Hc as [<-|[]]. right. right. eauto.
Qed.

Lemma detectChanges_only_logs_changes_witness :
  ∃ p,
    (LogEvent CRIADO "b.txt" = LogEvent CRIADO p
     ∧ (∅ : gmap string FileInfo) !! p = None
     ∧ is_Some (({["b.txt" := info_b]} : gmap string FileInfo) !! p))
    ∨ (LogEvent CRIADO "b.txt" = LogEvent MODIFICADO p
       ∧ ∃ o n, (∅ : gmap string FileInfo) !! p = Some o
                ∧ ({["b.txt" := info_b]} : gmap string FileInfo) !! p = Some n
                ∧ modified n o = true)
    ∨ (LogEvent CRIADO "b.txt" = LogEvent EXCLUIDO p
       ∧ is_Some ((∅ : gmap string FileInfo) !! p)
       ∧ ({["b.txt" := info_b]} : gmap string FileInfo) !! p = None).
Proof.
  apply (detectChanges_only_logs_changes
           (map_to_list ({["b.txt" := info_b]} : gmap string FileInfo))
           ∅ {["b.txt" := info_b]} (LogEvent CRIADO "b.txt")).
  - reflexivity.
  - vm_compute. left.
Defined.

End events.

(** ** Extensions and the ignore list *)

Section extensions.
Import config monitor observe snapshot sample text.

Lemma string_of_list_ascii_app (a b : list ascii) :
  string_of_list_ascii (a ++ b) = (string_of_list_ascii a ++ string_of_list_ascii b)%string.
Proof. induction a as [|c a IH]; simpl; [reflexivity | rewrite IH; reflexivity]. Qed.

Lemma elem_of_rev {A} (x : A) (l : list A) : x ∈ rev l → x ∈ l.
Proof. rewrite !list_elem_of_In. apply in_rev. Qed.

Lemma ext_scan_spec r : ∀ acc,
  filepath.ext_scan r acc = []
  ∨ ∃ r1 r2,
      r = r1 ++ "."%char :: r2
      ∧ ("."%char ∉ r1) ∧ ("/"%char ∉ r1)
      ∧ filepath.ext_scan r acc = "."%char :: (rev r1 ++ acc).
Proof.
  induction r as [|c rest IH]; intros acc; simpl; [left; reflexivity|].
  unfold filepath.IsPathSeparator, filepath.Separator.
  destruct (Ascii.eqb c "/") eqn:Hsep; [left; reflexivity|].
  destruct (Ascii.eqb c ".") eqn:Hdot.
  - apply Ascii.eqb_eq in Hdot. subst c. right. exists [], rest.
    repeat split; try reflexivity; apply not_elem_of_nil.
  - apply Ascii.eqb_neq in Hsep, Hdot.
    destruct (IH (c :: acc)) as [Hnil|(r1 & r2 & -> & Hd & Hs & Hres)]; [left; exact Hnil|].
    right. exists (c :: r1), r2. repeat split.
    + intros Hin. apply elem_of_cons in Hin. destruct Hin; [congruence | contradiction].
    + intros Hin. apply elem_of_cons in Hin. destruct Hin; [congruence | contradiction].
    + rewrite Hres. simpl. rewrite <- app_assoc. reflexivity.
Qed.

Lemma Ext_suffix_and_shape path :
  (∃ prefix, path = (prefix ++ filepath.Ext path)%string)
  ∧ ext_shape (filepath.Ext path).
Proof.
  unfold filepath.Ext.
  destruct (ext_scan_spec (rev (list_ascii_of_string path)) [])
    as [Hnil|(r1 & r2 & Hrev & Hd & Hs & Hres)].
  - rewrite Hnil. simpl. split; [|left; reflexivity].
    exists path. clear. induction path as [|c p IH]; [reflexivity|].
    change (String c p = String c (p ++ "")%string). f_equal. exact IH.
  - rewrite Hres, app_nil_r. split.
    + exists (string_of_list_ascii (rev r2)).
      change ("."%char :: rev r1) with (["."%char] ++ rev r1).
      rewrite <- !string_of_list_ascii_app.
      rewrite <- (string_of_list_ascii_of_string path) at 1. f_equal.
      rewrite <- (rev_involutive (list_ascii_of_string path)), Hrev.
      rewrite rev_app_distr. simpl. rewrite <- !app_assoc. reflexivity.
    + right. exists (string_of_list_ascii (rev r1)). split; [reflexivity|].
      unfold has_char. rewrite list_ascii_of_string_of_list_ascii.
      split; intros Hin; apply elem_of_rev in Hin; contradiction.
Qed.

(** A file is ignored exactly when the string [filepath.Ext] returns for
    its path is an entry of the ignore list; that string is a suffix of the
    path and is empty or a dot followed by neither dot nor separator. *)
Theorem shouldIgnore_matches_the_extension cfg path :
  (shouldIgnore cfg path = true ↔ filepath.Ext path ∈ IgnoreExts cfg)
  ∧ (∃ prefix, path = (prefix ++ filepath.Ext path)%string)
  ∧ ext_shape (filepath.Ext path).
Proof.
  split; [apply shouldIgnore_spec | apply Ext_suffix_and_shape].
Qed.

Lemma join_split_colon cs : ∀ cur,
  join_with ":" (filepath.split_colon cs cur) = string_of_list_ascii (rev cur ++ cs)
  ∧ filepath.split_colon cs cur ≠ []
  ∧ (":"%char ∉ cs →
     filepath.split_colon cs cur = [string_of_list_ascii (rev cur ++ cs)])
  ∧ (":"%char ∉ cur →
     Forall (λ e, ¬ has_char ":"%char e) (filepath.split_colon cs cur)).
Proof.
  induction cs as [|c rest IH]; intros cur; simpl.
  - rewrite app_nil_r. repeat split; try discriminate.
    intros Hcur. constructor; [|constructor].
    unfold has_char. rewrite list_ascii_of_string_of_list_ascii.
    intros Hin. apply elem_of_rev in Hin. contradiction.
  - destruct (Ascii.eqb c ":") eqn:Hc.
    + apply Ascii.eqb_eq in Hc. subst c.
      destruct (IH []) as (Hjoin & Hne & _ & Hall). simpl in Hjoin.
      repeat split; try discriminate.
      * cbn [join_with]. destruct (filepath.split_colon rest []) eqn:Hsplit;
          [contradiction Hne; reflexivity|].
        rewrite Hjoin, string_of_list_ascii_app. reflexivity.
      * intros Hnot. contradiction Hnot. left.
      * intros Hcur. constructor; [|apply Hall, not_elem_of_nil].
        unfold has_char. rewrite list_ascii_of_string_of_list_ascii.
        intros Hin. apply elem_of_rev in Hin. contradiction.
    + apply Ascii.eqb_neq in Hc.
      destruct (IH (c :: cur)) as (Hjoin & Hne & Hone & Hall). simpl in *.
      rewrite <- app_assoc in Hjoin, Hone. simpl in *.
      repeat split; [exact Hjoin | exact Hne | |].
      * intros Hnot. apply Hone. intros Hin. apply Hnot. right. exact Hin.
      * intros Hcur. apply Hall. intros Hin. apply elem_of_cons in Hin.
        destruct Hin; [congruence | contradiction].
Qed.

Lemma LoadConfig_IgnoreExts Getenv :
  IgnoreExts (LoadConfig Getenv)
  = if String.eqb (Getenv "IGNORE_EXTS") "" then [".temp"; ".swp"]
    else filepath.SplitList (Getenv "IGNORE_EXTS").
Proof. reflexivity. Qed.

(** A non-empty [IGNORE_EXTS] is cut at its colons and nowhere else:
    joining the entries with colons gives the variable back; a value
    without a colon is one single entry, and when that entry does not have
    the shape of an extension, no file is ever ignored. *)
Theorem LoadConfig_splits_IGNORE_EXTS_at_colons Getenv s :
  Getenv "IGNORE_EXTS" = s →
  s ≠ "" →
  join_with ":" (IgnoreExts (LoadConfig Getenv)) = s
  ∧ Forall (λ e, ¬ has_char ":"%char e) (IgnoreExts (LoadConfig Getenv))
  ∧ (¬ has_char ":"%char s → IgnoreExts (LoadConfig Getenv) = [s])
  ∧ (¬ has_char ":"%char s → ¬ ext_shape s →
     ∀ path, shouldIgnore (LoadConfig Getenv) path = false).
Proof.
  intros Hs Hne. rewrite LoadConfig_IgnoreExts, Hs.
  apply String.eqb_neq in Hne. rewrite Hne.
  unfold filepath.SplitList. rewrite Hne.
  destruct (join_split_colon (list_ascii_of_string s) []) as (Hjoin & _ & Hone & Hall).
  simpl in Hjoin, Hone. rewrite string_of_list_ascii_of_string in Hjoin, Hone.
  split; [exact Hjoin|]. split; [apply Hall, not_elem_of_nil|].
  split; [exact Hone|].
  intros Hnocolon Hshape path.
  destruct (shouldIgnore (LoadConfig Getenv) path) eqn:Hign; [|reflexivity].
  exfalso. apply Hshape.
  destruct (Ext_suffix_and_shape path) as [_ Hext].
  apply shouldIgnore_spec in Hign. rewrite LoadConfig_IgnoreExts, Hs, Hne in Hign.
  unfold filepath.SplitList in Hign. rewrite Hne, (Hone Hnocolon) in Hign.
  apply list_elem_of_singleton in Hign. rewrite <- Hign. exact Hext.
Qed.

Lemma LoadConfig_splits_IGNORE_EXTS_at_colons_witness :
  IgnoreExts (LoadConfig (env_with "IGNORE_EXTS" ".tmp,.bak,.swp")) = [".tmp,.bak,.swp"]
  ∧ shouldIgnore (LoadConfig (env_with "IGNORE_EXTS" ".tmp,.bak,.swp")) "notes.tmp" = false.
Proof.
  assert (Hcolon : ¬ has_char ":"%char ".tmp,.bak,.swp").
  { unfold has_char. simpl. intros H.
    repeat (apply elem_of_cons in H as [H|H]; [discriminate H|]). inversion H. }
  assert (Hshape : ¬ ext_shape ".tmp,.bak,.swp").
  { intros [H|(rest & Heq & Hdot & _)]; [discriminate H|].
    injection Heq as <-. apply Hdot. unfold has_char. apply list_elem_of_In. simpl.
    do 4 right. left. reflexivity. }
  destruct (LoadConfig_splits_IGNORE_EXTS_at_colons
              (env_with "IGNORE_EXTS" ".tmp,.bak,.swp") ".tmp,.bak,.swp"
              eq_refl ltac:(discriminate)) as (_ & _ & Hone & Hnever).
  split; [exact (Hone Hcolon) | exact (Hnever Hcolon Hshape "notes.tmp")].
Defined.

Lemma LoadConfig_CheckInterval Getenv :
  CheckInterval (LoadConfig Getenv)
  = if String.eqb (Getenv "CHECK_INTERVAL") "" then wrap64 (5 * Second)
    else match strconv.Atoi (Getenv "CHECK_INTERVAL") with
         | Some seconds => wrap64 (seconds * Second)
         | None => wrap64 (5 * Second)
         end.
Proof. reflexivity. Qed.

(** [LoadConfig] takes any [CHECK_INTERVAL] that parses: from 1 to
    9223372036 seconds the interval is that many seconds and positive; from
    0 down to -9223372036 it is that many seconds and not positive, and the
    poll loop of a monitor built with these settings panics when it makes
    its ticker. *)
Theorem LoadConfig_accepts_any_interval Getenv n :
  strconv.Atoi (Getenv "CHECK_INTERVAL") = Some n →
  (1 ≤ n ≤ 9223372036 →
   CheckInterval (LoadConfig Getenv) = n * Second
   ∧ 0 < CheckInterval (LoadConfig Getenv))
  ∧ (-9223372036 ≤ n ≤ 0 →
     CheckInterval (LoadConfig Getenv) = n * Second
     ∧ ∀ g choice gr w,
         monitor.config (runtime.mon w) = LoadConfig Getenv →
         runtime.pc gr = runtime.LoopNewTicker →
         runtime.exec g choice gr w
         = Some (runtime.set_pc runtime.Exit gr, runtime.set_crashed w)).
Proof.
  intros Hparse.
  assert (Hval : CheckInterval (LoadConfig Getenv) = wrap64 (n * Second)).
  { rewrite LoadConfig_CheckInterval, Hparse.
    destruct (String.eqb (Getenv "CHECK_INTERVAL") "") eqn:Hempty; [|reflexivity].
    apply String.eqb_eq in Hempty. rewrite Hempty in Hparse. discriminate Hparse. }
  split; intros Hn.
  - rewrite Hval, wrap64_small; unfold Second, int64_min, int64_max; lia.
  - assert (Heq : CheckInterval (LoadConfig Getenv) = n * Second).
    { rewrite Hval, wrap64_small; unfold Second, int64_min, int64_max; lia. }
    split; [exact Heq|].
    intros g choice gr w Hcfg Hpc. unfold runtime.exec. rewrite Hpc, Hcfg, Heq.
    destruct (n * Second <=? 0) eqn:Hle; [reflexivity|].
    apply Z.leb_gt in Hle. unfold Second in Hle. lia.
Qed.

Lemma LoadConfig_accepts_any_interval_witness :
  CheckInterval (LoadConfig (env_with "CHECK_INTERVAL" "10")) = 10 * Second
  ∧ CheckInterval (LoadConfig (env_with "CHECK_INTERVAL" "0")) = 0 * Second.
Proof.
  split.
  - apply (proj1 (LoadConfig_accepts_any_interval (env_with "CHECK_INTERVAL" "10") 10
                    eq_refl)). lia.
  - apply (proj2 (LoadConfig_accepts_any_interval (env_with "CHECK_INTERVAL" "0") 0
                    eq_refl)). lia.
Defined.

End extensions.

(** ** The logger *)

Section logging.
Import config logger.

Lemma string_length_append (a b : string) :
  String.length (a ++ b)%string = (String.length a + String.length b)%nat.
Proof.
  induction a as [|c a IH]; [reflexivity|].
  change (Datatypes.S (String.length (a ++ b)%string)
          = Datatypes.S (String.length a + String.length b)%nat).
  rewrite IH. reflexivity.
Qed.

Lemma string_append_assoc (a b c : string) :
  ((a ++ b) ++ c)%string = (a ++ (b ++ c))%string.
Proof.
  induction a as [|x a IH]; [reflexivity|].
  change (String x ((a ++ b) ++ c)%string = String x (a ++ (b ++ c))%string).
  rewrite IH. reflexivity.
Qed.

Lemma string_append_nil_r (a : string) : (a ++ "")%string = a.
Proof.
  induction a as [|x a IH]; [reflexivity|].
  change (String x (a ++ "")%string = String x a). rewrite IH. reflexivity.
Qed.

Lemma grows_refl disk : grows disk disk.
Proof. intros path content H. exists "". rewrite string_append_nil_r. exact H. Qed.

Lemma grows_trans d1 d2 d3 : grows d1 d2 → grows d2 d3 → grows d1 d3.
Proof.
  intros H12 H23 path content H.
  destruct (H12 path content H) as [m1 H2].
  destruct (H23 path _ H2) as [m2 H3].
  exists (m1 ++ m2)%string. rewrite <- string_append_assoc. exact H3.
Qed.

Lemma grows_create path disk : grows disk (create path disk).
Proof.
  unfold create. destruct (disk !! path) eqn:Hp; [apply grows_refl|].
  intros p content H. exists "". rewrite string_append_nil_r.
  rewrite lookup_insert_ne; [exact H | congruence].
Qed.

Lemma grows_append_to path bytes disk : grows disk (append_to path bytes disk).
Proof.
  intros p content H. unfold append_to.
  destruct (decide (path = p)) as [->|Hne].
  - exists bytes. rewrite lookup_alter_eq, H. reflexivity.
  - exists "". rewrite string_append_nil_r, lookup_alter_ne by exact Hne. exact H.
Qed.

Lemma grows_openLogFile env l disk : grows disk (openLogFile env l disk).1.2.
Proof.
  unfold openLogFile. destruct (mu l); [apply grows_refl|].
  destruct (open_error env); [apply grows_refl|].
  destruct (stat_error env); simpl; apply grows_create.
Qed.

(** Whatever a call of [Log] does and however it ends, no file loses a
    byte: every content that was on the disk is a prefix of the content
    that is there afterwards. *)
Theorem Log_only_appends env message l disk :
  grows disk (Log env message l disk).1.2.
Proof.
  unfold Log. destruct (mu l); [apply grows_refl|].
  destruct (file l) as [f|]; [|apply grows_refl].
  destruct (closed f); [apply grows_refl|].
  destruct (write env) as [|written e]; [|apply grows_append_to].
  match goal with |- context [if ?b then _ else _] => destruct b end;
    [|apply grows_append_to].
  match goal with
  | |- context [openLogFile env ?l' ?d'] =>
      pose proof (grows_openLogFile env l' d') as Hopen;
      destruct (openLogFile env l' d') as [[l2 d2] [r|]]
  end; simpl in *;
    (eapply grows_trans; [apply grows_append_to | exact Hopen]).
Qed.

Lemma Log_only_appends_witness :
  ∃ more,
    (Log sample_log.quiet_env "ok" sample_log.new_logger sample_log.new_disk).1.2
      !! sample_log.log_path
    = Some ("" ++ more)%string.
Proof.
  apply (Log_only_appends sample_log.quiet_env "ok" sample_log.new_logger
                          sample_log.new_disk sample_log.log_path "").
  vm_compute. reflexivity.
Defined.

(** [currentSize] is the size of the log file: [NewLogger], when it gives
    a logger, gives one for which this holds, on a file it has made if
    missing and not cut if present; and a [Log] whose write succeeds and
    stays within [MaxLogSize] returns nil, appends exactly the formatted
    line, and keeps it so. *)
Theorem currentSize_tracks_the_file :
  (∀ cfg env disk l disk' r,
      NewLogger cfg env disk = (Some l, disk', r) →
      r = None
      ∧ tracks l disk'
      ∧ grows disk disk'
      ∧ file l = Some {| name := filepath.Join (LogDir cfg) (fileName env);
                         closed := false |})
  ∧ (∀ env message l disk f content,
        mu l = false →
        file l = Some f → closed f = false →
        disk !! name f = Some content →
        currentSize l = Z.of_nat (String.length content) →
        write env = WriteAll →
        currentSize l + Z.of_nat (String.length (formattedMsg env message))
        ≤ MaxLogSize (logger.config l) →
        MaxLogSize (logger.config l) ≤ int64_max →
        ∃ l',
          Log env message l disk
          = (l', append_to (name f) (formattedMsg env message) disk, Returns None)
          ∧ file l' = Some f
          ∧ append_to (name f) (formattedMsg env message) disk !! name f
            = Some (content ++ formattedMsg env message)%string
          ∧ tracks l' (append_to (name f) (formattedMsg env message) disk)).
Proof.
  split.
  - intros cfg env disk l disk' r Hnew. unfold NewLogger, openLogFile in Hnew.
    simpl in Hnew.
    destruct (open_error env); [discriminate Hnew|].
    destruct (stat_error env); [discriminate Hnew|].
    injection Hnew as <- <- <-.
    split; [reflexivity|]. split; [|split; [apply grows_create | reflexivity]].
    split; [reflexivity|]. simpl.
    set (path := filepath.Join (LogDir cfg) (fileName env)).
    unfold size_of, create.
    destruct (disk !! path) as [content|] eqn:Hp.
    + exists {| name := path; closed := false |}, content. rewrite Hp. auto.
    + exists {| name := path; closed := false |}, "".
      rewrite !lookup_insert_eq. auto.
  - intros env message l disk f content Hmu Hfile Hopen Hdisk Hsize Hwrite Hfits Hmax.
    unfold Log. rewrite Hmu, Hfile, Hopen, Hwrite.
    assert (Hw : wrap64 (currentSize l + Z.of_nat (String.length (formattedMsg env message)))
                 = currentSize l + Z.of_nat (String.length (formattedMsg env message))).
    { apply wrap64_small. unfold int64_min. lia. }
    rewrite Hw. clear Hw.
    set (n := Z.of_nat (String.length (formattedMsg env message))) in *.
    cbn [logger.config].
    destruct (_ >? _) eqn:Hgt; [apply Z.gtb_lt in Hgt; lia|].
    eexists. split; [reflexivity|]. simpl.
    assert (Hlook : append_to (name f) (formattedMsg env message) disk !! name f
                    = Some (content ++ formattedMsg env message)%string).
    { unfold append_to. rewrite lookup_alter_eq, Hdisk. reflexivity. }
    split; [reflexivity|]. split; [exact Hlook|].
    split; [reflexivity|]. exists f, (content ++ formattedMsg env message)%string.
    simpl. repeat split; auto.
    rewrite string_length_append, Hsize. subst n. lia.
Qed.

Lemma currentSize_tracks_the_file_witness :
  NewLogger sample_log.small_log_config sample_log.quiet_env ∅
  = (Some sample_log.new_logger, sample_log.new_disk, None)
  ∧ tracks sample_log.new_logger sample_log.new_disk
  ∧ ∃ l',
      Log sample_log.quiet_env "ok" sample_log.new_logger sample_log.new_disk
      = (l', append_to sample_log.log_path (formattedMsg sample_log.quiet_env "ok")
                        sample_log.new_disk, Returns None)
      ∧ file l' = Some {| name := sample_log.log_path; closed := false |}
      ∧ append_to sample_log.log_path (formattedMsg sample_log.quiet_env "ok")
                  sample_log.new_disk !! sample_log.log_path
        = Some ("" ++ formattedMsg sample_log.quiet_env "ok")%string
      ∧ tracks l' (append_to sample_log.log_path (formattedMsg sample_log.quiet_env "ok")
                             sample_log.new_disk).
Proof.
  assert (Hnew : NewLogger sample_log.small_log_config sample_log.quiet_env ∅
                 = (Some sample_log.new_logger, sample_log.new_disk, None))
    by (vm_compute; reflexivity).
  split; [exact Hnew|]. split.
  - exact (proj1 (proj2 (proj1 currentSize_tracks_the_file _ _ _ _ _ _ Hnew))).
  - apply (proj2 currentSize_tracks_the_file sample_log.quiet_env "ok"
                 sample_log.new_logger sample_log.new_disk
                 {| name := sample_log.log_path; closed := false |} "");
      try reflexivity; vm_compute; discriminate.
Defined.

(** When a write brings [currentSize] above [MaxLogSize], [Log] does not
    return: the line is written, then [openLogFile] locks the mutex that
    [Log] still holds.  The mutex stays locked, so every later call of
    [Log], [LogEvent], [Close] or [openLogFile] blocks as well and leaves
    the disk as it is. *)
Theorem Log_blocks_once_the_size_limit_is_passed env message l disk f :
  mu l = false →
  file l = Some f →
  closed f = false →
  write env = WriteAll →
  MaxLogSize (logger.config l)
  < wrap64 (currentSize l + Z.of_nat (String.length (formattedMsg env message))) →
  ∃ l',
    Log env message l disk
    = (l', append_to (name f) (formattedMsg env message) disk, Blocks)
    ∧ mu l' = true
    ∧ (∀ env' message' disk', Log env' message' l' disk' = (l', disk', Blocks))
    ∧ (∀ env' event path disk', LogEvent env' event path l' disk' = (l', disk', Blocks))
    ∧ (∀ env' disk', openLogFile env' l' disk' = (l', disk', Blocks))
    ∧ Close l' = (l', Blocks).
Proof.
  intros Hmu Hfile Hopen Hwrite Hover.
  unfold Log. rewrite Hmu, Hfile, Hopen, Hwrite.
  set (size := wrap64 _) in *. cbn [logger.config].
  destruct (size >? MaxLogSize (logger.config l)) eqn:Hgt;
    [|rewrite Z.gtb_ltb in Hgt; apply Z.ltb_ge in Hgt; lia].
  unfold openLogFile at 1. cbn [mu].
  eexists. split; [reflexivity|].
  split; [reflexivity|].
  repeat split; intros; reflexivity.
Qed.

Lemma Log_blocks_once_the_size_limit_is_passed_witness :
  ∃ l',
    Log sample_log.quiet_env "CRIADO a.txt, b.txt" sample_log.new_logger sample_log.new_disk
    = (l', append_to sample_log.log_path
                     (formattedMsg sample_log.quiet_env "CRIADO a.txt, b.txt")
                     sample_log.new_disk, Blocks)
    ∧ mu l' = true
    ∧ (∀ env' message' disk', Log env' message' l' disk' = (l', disk', Blocks))
    ∧ (∀ env' event path disk', LogEvent env' event path l' disk' = (l', disk', Blocks))
    ∧ (∀ env' disk', openLogFile env' l' disk' = (l', disk', Blocks))
    ∧ Close l' = (l', Blocks).
Proof.
  apply (Log_blocks_once_the_size_limit_is_passed sample_log.quiet_env
           "CRIADO a.txt, b.txt" sample_log.new_logger sample_log.new_disk
           {| name := sample_log.log_path; closed := false |});
    try reflexivity.
Defined.

End logging.

(** ** Goroutines: the lock and a single Start *)

Section exclusion.
Import config monitor runtime discipline observe sample once.




End exclusion.

Section single_start.
Import config monitor runtime discipline observe sample once.

Ltac statement H :=
  unfold exec, scan_step, lock in H;
  repeat (simplify_eq/=;
          match type of H with
          | context [match ?x with _ => _ end] => destruct x eqn:?
          end);
  simplify_eq/=.

Lemma chans_set_crashed w : chans (set_crashed w) = chans w.
Proof. reflexivity. Qed.

Lemma crashed_unlock w : crashed (unlock w) = true → crashed w = true ∨ mutex w = None.
Proof. unfold unlock. destruct (mutex w); simpl; auto. Qed.

Lemma starts_left_ret r gr :
  (starts_left (ret r gr) ≤ List.length (List.filter is_Start (todo gr)))%nat.
Proof.
  unfold ret, starts_left. destruct (todo gr) as [|[] rest]; simpl; lia.
Qed.

Lemma exec_settings g choice gr w gr' w' :
  exec g choice gr w = Some (gr', w') →
  monitor.config (mon w') = monitor.config (mon w)
  ∧ stopChan (mon w') = stopChan (mon w).
Proof.
  intros H. destruct gr as [p td rs tk]. statement H;
    rewrite ?mon_unlock; split; reflexivity.
Qed.

Lemma exec_chans g choice gr w gr' w' :
  exec g choice gr w = Some (gr', w') →
  chans w' = chans w
  ∨ (pc gr = StopClose ∧ pc gr' = StopClear
     ∧ close_chan (stopChan (mon w)) (chans w) = Some (chans w')).
Proof.
  intros H. destruct gr as [p td rs tk]. statement H;
    rewrite ?chans_unlock;
    first [ left; reflexivity | right; repeat split; assumption ].
Qed.

Lemma exec_sets_flag g choice gr w gr' w' :
  exec g choice gr w = Some (gr', w') →
  isRunnig (mon w') = true →
  isRunnig (mon w) = true ∨ pc gr = StartSet.
Proof.
  intros H. destruct gr as [p td rs tk]. statement H;
    rewrite ?mon_unlock; simpl; intros Hflag;
    first [ left; assumption | left; reflexivity | right; reflexivity
          | discriminate Hflag | congruence ].
Qed.

Lemma exec_clears_flag g choice gr w gr' w' :
  exec g choice gr w = Some (gr', w') →
  pc gr = StopClear →
  isRunnig (mon w') = false.
Proof.
  intros H Hpc. destruct gr as [p td rs tk]. simpl in Hpc. subst p.
  statement H. reflexivity.
Qed.

Lemma exec_reaches_StopClose g choice gr w gr' w' :
  exec g choice gr w = Some (gr', w') →
  pc gr' = StopClose →
  isRunnig (mon w') = true.
Proof.
  intros H. destruct gr as [p td rs tk]. statement H;
    rewrite ?mon_unlock; intros Hpc;
    try discriminate Hpc; try assumption;
    exfalso; revert Hpc; unfold ret; simpl; destruct td as [|[] ?]; discriminate.
Qed.

Lemma exec_starts_left g choice gr w gr' w' :
  exec g choice gr w = Some (gr', w') →
  (starts_left gr' ≤ starts_left gr)%nat
  ∧ (pc gr = StartSet → (starts_left gr' < starts_left gr)%nat).
Proof.
  intros H. destruct gr as [p td rs tk].
  pose proof (λ r, starts_left_ret r {| pc := p; todo := td; results := rs; tick := tk |})
    as Hret.
  simpl in Hret.
  statement H;
    (split; [|intros Hpc; try discriminate Hpc]);
    try (specialize (Hret None));
    unfold starts_left in *; simpl in *; try lia;
    match goal with
    | |- context [ret ?r ?x] => pose proof (starts_left_ret r x) as Hr;
                                unfold starts_left in Hr; simpl in Hr; lia
    end.
Qed.

Lemma exec_crashes g choice gr w gr' w' :
  exec g choice gr w = Some (gr', w') →
  crashed w' = true →
  crashed w = true
  ∨ (holding (pc gr) = true ∧ mutex w = None)
  ∨ (pc gr = StopClose ∧ close_chan (stopChan (mon w)) (chans w) = None)
  ∨ (pc gr = LoopNewTicker ∧ CheckInterval (monitor.config (mon w)) ≤ 0).
Proof.
  intros H. destruct gr as [p td rs tk]. statement H; intros Hc;
    try (left; exact Hc);
    try (apply crashed_unlock in Hc as [Hc|Hc];
         [left; exact Hc | right; left; split; [reflexivity | exact Hc]]);
    try (right; right; left; split; [reflexivity | (assumption || reflexivity)]);
    try (right; right; right; split; [reflexivity | apply Z.leb_le; assumption]).
Qed.

End single_start.

Section single_start_schedules.
Import config monitor runtime discipline observe sample once.

Lemma sum_list_with_insert {A} (f : A → nat) (l : list A) g x x' :
  l !! g = Some x →
  (sum_list_with f (<[g := x']> l) + f x = sum_list_with f l + f x')%nat.
Proof.
  revert g. induction l as [|y l IH]; intros g Hg; [discriminate|].
  destruct g as [|g]; simpl in *.
  - injection Hg as ->. lia.
  - specialize (IH g Hg). lia.
Qed.

Lemma sum_list_with_member {A} (f : A → nat) (l : list A) g x :
  l !! g = Some x → (f x ≤ sum_list_with f l)%nat.
Proof.
  revert g. induction l as [|y l IH]; intros g Hg; [discriminate|].
  destruct g as [|g]; simpl in *.
  - injection Hg as ->. lia.
  - specialize (IH g Hg). lia.
Qed.

Lemma pending_loops (extra : list Goroutine) :
  Forall (λ x, pc x = LoopNewTicker ∧ todo x = []) extra → pending extra = 0%nat.
Proof.
  induction 1 as [|x l [Hpc Htodo] _ IH]; [reflexivity|].
  unfold pending in *. simpl. rewrite IH. unfold starts_left. rewrite Hpc, Htodo.
  reflexivity.
Qed.

Lemma pending_after g gr gr' (pool0 extra : list Goroutine) :
  pool0 !! g = Some gr →
  Forall (λ x, pc x = LoopNewTicker ∧ todo x = []) extra →
  (pending (<[g := gr']> (pool0 ++ extra)) + starts_left gr
   = pending pool0 + starts_left gr')%nat.
Proof.
  intros Hg Hextra. pose proof (lookup_lt_Some _ _ _ Hg) as Hlt.
  rewrite insert_app_l by exact Hlt. unfold pending.
  rewrite sum_list_with_app. fold (pending extra). rewrite (pending_loops _ Hextra).
  pose proof (sum_list_with_insert starts_left pool0 g gr gr' Hg). lia.
Qed.

Lemma closing_inv_step l w w2 :
  step l w = Some w2 → mutex_inv w → closing_inv w → closing_inv w2.
Proof.
  intros Hstep [Hhold Hbound] Hclosing. destruct l as [g choice|g|fs'].
  - destruct (step_Run _ _ _ _ Hstep) as (gr & gr' & w' & Hg & He & ->).
    destruct (exec_pool_app _ _ _ _ _ _ He) as (extra & Hpool & Hextra).
    intros g2 gr2 H2 Hpc. simpl in *. rewrite Hpool in H2.
    destruct (pool_after _ _ _ _ _ _ _ Hg H2)
      as [[-> ->]|[[Hne Hold]|(Hne & Hge & Hin)]].
    + eapply exec_reaches_StopClose; eassumption.
    + destruct (exec_flag _ _ _ _ _ _ He) as [->|Hh].
      * eapply Hclosing; eassumption.
      * exfalso. apply (Hhold g gr Hg) in Hh.
        assert (Hh2 : holding (pc gr2) = true) by (rewrite Hpc; reflexivity).
        apply (Hhold g2 gr2 Hold) in Hh2. congruence.
    + rewrite Forall_forall in Hextra. destruct (Hextra _ Hin) as [Hpc' _]. congruence.
  - destruct (step_Tick _ _ _ Hstep) as (gr & Hg & ->).
    pose proof (lookup_lt_Some _ _ _ Hg) as Hlt.
    intros g2 gr2 H2 Hpc. simpl in *. destruct (decide (g2 = g)) as [->|Hne].
    + rewrite list_lookup_insert_eq in H2 by exact Hlt.
      injection H2 as <-. simpl in Hpc. eapply Hclosing; eassumption.
    + rewrite list_lookup_insert_ne in H2 by congruence. eapply Hclosing; eassumption.
  - unfold step in Hstep. destruct (crashed w); [discriminate|].
    injection Hstep as <-. exact Hclosing.
Qed.

Lemma close_chan_single b chans' :
  close_chan 0 [b] = Some chans' → chans' = [true].
Proof.
  unfold close_chan. simpl. destruct b; [discriminate|]. intros [= <-]. reflexivity.
Qed.

Lemma once_inv_step cfg l w w2 :
  step l w = Some w2 →
  mutex_inv w → closing_inv w → once_inv cfg w → once_inv cfg w2.
Proof.
  intros Hstep [Hhold Hbound] Hclosing (Hcfg & Hchan & [b Hb] & Hle & Hbefore & Hclosed).
  destruct l as [g choice|g|fs'].
  - destruct (step_Run _ _ _ _ Hstep) as (gr & gr' & w' & Hg & He & ->).
    destruct (exec_pool_app _ _ _ _ _ _ He) as (extra & Hpool & Hextra).
    destruct (exec_settings _ _ _ _ _ _ He) as [Hcfg' Hchan'].
    destruct (exec_starts_left _ _ _ _ _ _ He) as [Hleft Hset].
    pose proof (pending_after g gr gr' (pool w) extra Hg Hextra) as Hpend.
    pose proof (sum_list_with_member starts_left (pool w) g gr Hg) as Hmem.
    fold (pending (pool w)) in Hmem.
    pose proof (lookup_lt_Some _ _ _ Hg) as Hlt.
    assert (Hchans : chans w' = chans w
                     ∨ (pc gr = StopClose ∧ pc gr' = StopClear ∧ chans w' = [true])).
    { destruct (exec_chans _ _ _ _ _ _ He) as [Heq|(H1 & H2 & H3)]; [left; exact Heq|].
      right. repeat split; try assumption.
      rewrite Hchan, Hb in H3. eapply close_chan_single. exact H3. }
    unfold once_inv. simpl. rewrite Hpool.
    split; [congruence|]. split; [congruence|].
    split; [destruct Hchans as [->|(_ & _ & ->)]; eauto|].
    split; [lia|]. split.
    + intros Hone.
      assert (Hwas : pending (pool w) = 1%nat) by lia.
      destruct (Hbefore Hwas) as [Hflag Hopen].
      assert (Hnotset : pc gr ≠ StartSet) by (intros Hpc; specialize (Hset Hpc); lia).
      split.
      * destruct (isRunnig (mon w')) eqn:Hflag'; [|reflexivity].
        destruct (exec_sets_flag _ _ _ _ _ _ He Hflag'); congruence.
      * destruct Hchans as [->|(Hpc & _ & _)]; [exact Hopen|].
        pose proof (Hclosing g gr Hg Hpc). congruence.
    + intros Hnow Hflag'.
      destruct Hchans as [Heq|(_ & Hpc' & _)].
      * rewrite Heq in Hnow.
        destruct (exec_sets_flag _ _ _ _ _ _ He Hflag') as [Hflag|Hpc].
        -- destruct (Hclosed Hnow Hflag) as (g0 & gr0 & Hg0 & Hpc0).
           destruct (decide (g0 = g)) as [->|Hne].
           ++ rewrite Hg in Hg0. injection Hg0 as <-.
              pose proof (exec_clears_flag _ _ _ _ _ _ He Hpc0). congruence.
           ++ exists g0, gr0. split; [|exact Hpc0].
              rewrite list_lookup_insert_ne by congruence.
              rewrite lookup_app_l by (eapply lookup_lt_Some; exact Hg0). exact Hg0.
        -- exfalso. specialize (Hset Hpc).
           assert (Hwas : pending (pool w) = 1%nat) by lia.
           destruct (Hbefore Hwas) as [_ Hopen]. congruence.
      * exists g, gr'. split; [|exact Hpc'].
        apply list_lookup_insert_eq. rewrite length_app. lia.
  - destruct (step_Tick _ _ _ Hstep) as (gr & Hg & ->).
    pose proof (lookup_lt_Some _ _ _ Hg) as Hlt.
    set (gr' := {| pc := pc gr; todo := todo gr; results := results gr; tick := true |}).
    pose proof (sum_list_with_insert starts_left (pool w) g gr gr' Hg) as Hins.
    assert (Hsame : pending (<[g := gr']> (pool w)) = pending (pool w)).
    { assert (Heq : starts_left gr' = starts_left gr) by reflexivity.
      unfold pending. rewrite Heq in Hins. lia. }
    unfold once_inv. simpl. rewrite Hsame.
    repeat (split; [first [assumption | eauto]|]).
    intros Hnow Hflag. destruct (Hclosed Hnow Hflag) as (g0 & gr0 & Hg0 & Hpc0).
    destruct (decide (g0 = g)) as [->|Hne].
    + rewrite Hg in Hg0. injection Hg0 as <-. exists g, gr'.
      split; [apply list_lookup_insert_eq; exact Hlt | exact Hpc0].
    + exists g0, gr0. split; [|exact Hpc0].
      rewrite list_lookup_insert_ne by congruence. exact Hg0.
  - unfold step in Hstep. destruct (crashed w); [discriminate|].
    injection Hstep as <-. unfold once_inv. simpl. eauto 10.
Qed.

Lemma step_stays_alive cfg l w w2 :
  0 < CheckInterval cfg →
  step l w = Some w2 →
  mutex_inv w → closing_inv w → once_inv cfg w →
  crashed w2 = false.
Proof.
  intros Hpos Hstep [Hhold Hbound] Hclosing (Hcfg & Hchan & [b Hb] & _ & _ & Hclosed).
  assert (Halive : crashed w = false).
  { unfold step in Hstep. destruct (crashed w); [discriminate | reflexivity]. }
  destruct l as [g choice|g|fs'].
  - destruct (step_Run _ _ _ _ Hstep) as (gr & gr' & w' & Hg & He & ->). simpl.
    destruct (crashed w') eqn:Hc; [|reflexivity]. exfalso.
    destruct (exec_crashes _ _ _ _ _ _ He Hc)
      as [H|[[Hh Hfree]|[[Hpc Hfail]|[Hpc Hneg]]]].
    + congruence.
    + apply (Hhold g gr Hg) in Hh. congruence.
    + pose proof (Hclosing g gr Hg Hpc) as Hflag.
      rewrite Hchan, Hb in Hfail. unfold close_chan in Hfail. simpl in Hfail.
      destruct b; [|discriminate Hfail].
      destruct (Hclosed Hb Hflag) as (g0 & gr0 & Hg0 & Hpc0).
      assert (H1 : holding (pc gr) = true) by (rewrite Hpc; reflexivity).
      assert (H2 : holding (pc gr0) = true) by (rewrite Hpc0; reflexivity).
      apply (Hhold g gr Hg) in H1. apply (Hhold g0 gr0 Hg0) in H2.
      assert (g0 = g) by congruence. subst g0. congruence.
    + rewrite Hcfg in Hneg. lia.
  - destruct (step_Tick _ _ _ Hstep) as (gr & Hg & ->). exact Halive.
  - unfold step in Hstep. rewrite Halive in Hstep. injection Hstep as <-. exact Halive.
Qed.

End single_start_schedules.

Section single_start_claim.
Import config monitor runtime discipline observe sample once.

Lemma pending_init (callers : list (list Call)) :
  pending (caller <$> callers) = List.length (List.filter is_Start (List.concat callers)).
Proof.
  induction callers as [|calls rest IH]; [reflexivity|].
  rewrite fmap_cons. unfold pending in *. cbn [sum_list_with List.concat].
  rewrite IH, List.filter_app, length_app.
  destruct calls as [|[] more]; unfold starts_left; simpl; lia.
Qed.

(** When [Start] is called at most once in the whole program and the
    interval is positive, no schedule of any number of callers of [Stop]
    ends in a panic: the stop channel is never closed twice, the lock is
    never unlocked by a goroutine that does not hold it, and the ticker is
    made with a positive interval. *)
Theorem a_single_Start_never_panics cfg tree callers w :
  0 < CheckInterval cfg →
  (List.length (List.filter is_Start (List.concat callers)) ≤ 1)%nat →
  reachable cfg tree callers w →
  crashed w = false.
Proof.
  intros Hpos Hone [sched Hrun].
  refine (proj2 (run_invariant
                   (λ w, (mutex_inv w ∧ closing_inv w ∧ once_inv cfg w) ∧ crashed w = false)
                   _ sched _ _ Hrun _)).
  - intros l w1 w2 Hstep [(Hm & Hc & Ho) _].
    split; [split; [|split]|].
    + eapply mutex_inv_step; eassumption.
    + eapply closing_inv_step; eassumption.
    + eapply once_inv_step; eassumption.
    + eapply step_stays_alive; eassumption.
  - split; [split; [|split]|]; [apply mutex_inv_init | | | reflexivity].
    + intros g gr Hg Hpc. simpl in Hg. rewrite list_lookup_fmap in Hg.
      destruct (callers !! g) as [[|[] ?]|]; simplify_eq/=.
    + unfold once_inv. simpl. rewrite pending_init.
      repeat split; eauto; discriminate.
Qed.

Lemma a_single_Start_never_panics_witness :
  match run (alone 0 13 ++ alone 1 5 ++ alone 0 6)
            (init default_config tree_a_b [[CallStart; CallStop; CallStop]; [CallStop]]) with
  | Some w => crashed w = false
  | None => False
  end.
Proof.
  destruct (run (alone 0 13 ++ alone 1 5 ++ alone 0 6)
                (init default_config tree_a_b
                      [[CallStart; CallStop; CallStop]; [CallStop]]))
    as [w|] eqn:Hrun; [|vm_compute in Hrun; discriminate Hrun].
  apply (a_single_Start_never_panics default_config tree_a_b
           [[CallStart; CallStop; CallStop]; [CallStop]] w).
  - reflexivity.
  - simpl. lia.
  - exists (alone 0 13 ++ alone 1 5 ++ alone 0 6). exact Hrun.
Defined.

End single_start_claim.

Section one_scan_at_a_time.
Import config monitor runtime discipline observe sample once sequential.

Ltac statement H :=
  unfold exec, scan_step, lock in H;
  repeat (simplify_eq/=;
          match type of H with
          | context [match ?x with _ => _ end] => destruct x eqn:?
          end);
  simplify_eq/=.

Lemma loop_weight_ret r gr : in_loop (pc gr) = false → loop_weight (ret r gr) = 0%nat.
Proof. intros _. unfold ret, loop_weight. destruct (todo gr) as [|[] ?]; reflexivity. Qed.

Lemma exec_budget g choice gr w gr' w' :
  exec g choice gr w = Some (gr', w') →
  (starts_left gr' + weight gr' + spawned w' ≤ starts_left gr + weight gr + spawned w)%nat
  ∧ (loop_weight gr' ≤ loop_weight gr)%nat.
Proof.
  intros H. destruct gr as [p td rs tk].
  statement H; rewrite ?spawned_unlock;
    unfold weight, loop_weight, starts_left; simpl;
    try (split; lia);
    match goal with
    | |- context [ret ?r ?x] =>
        pose proof (starts_left_ret r x) as Hr; pose proof (committed_ret r x) as Hc;
        pose proof (loop_weight_ret r x eq_refl) as Hl;
        unfold starts_left, loop_weight in Hr, Hl; simpl in Hr, Hl;
        rewrite Hc; split; lia
    end.
Qed.

Lemma sum_list_with_two {A} (f : A → nat) (l : list A) g1 g2 x1 x2 :
  g1 ≠ g2 → l !! g1 = Some x1 → l !! g2 = Some x2 →
  (f x1 + f x2 ≤ sum_list_with f l)%nat.
Proof.
  revert g1 g2. induction l as [|y l IH]; intros g1 g2 Hne H1 H2; [discriminate|].
  destruct g1 as [|g1], g2 as [|g2]; simpl in *; try congruence.
  - injection H1 as ->. pose proof (sum_list_with_member f l g2 x2 H2). lia.
  - injection H2 as ->. pose proof (sum_list_with_member f l g1 x1 H1). lia.
  - assert (g1 ≠ g2) by congruence. specialize (IH g1 g2 ltac:(assumption) H1 H2). lia.
Qed.

Lemma budget_inv_step l w w2 :
  step l w = Some w2 → budget_inv w → budget_inv w2.
Proof.
  intros Hstep [Hbudget Hloops]. destruct l as [g choice|g|fs'].
  - destruct (step_Run _ _ _ _ Hstep) as (gr & gr' & w' & Hg & He & ->).
    destruct (exec_budget _ _ _ _ _ _ He) as [Hb Hl].
    pose proof (lookup_lt_Some _ _ _ Hg) as Hlt.
    pose proof (sum_list_with_insert starts_left (pool w) g gr gr' Hg) as H1.
    pose proof (sum_list_with_insert weight (pool w) g gr gr' Hg) as H2.
    pose proof (sum_list_with_insert loop_weight (pool w) g gr gr' Hg) as H3.
    unfold budget_inv, pending, in_flight, loops in *. simpl.
    destruct (exec_pool _ _ _ _ _ _ He) as [(Hp & Hs & _)|(_ & Hp & Hs)]; rewrite Hp.
    + rewrite Hs in *. split; lia.
    + rewrite insert_app_l by exact Hlt. rewrite !sum_list_with_app. simpl.
      rewrite Hs in *. split; lia.
  - destruct (step_Tick _ _ _ Hstep) as (gr & Hg & ->).
    set (gr' := {| pc := pc gr; todo := todo gr; results := results gr; tick := true |}).
    pose proof (sum_list_with_insert starts_left (pool w) g gr gr' Hg) as H1.
    pose proof (sum_list_with_insert weight (pool w) g gr gr' Hg) as H2.
    pose proof (sum_list_with_insert loop_weight (pool w) g gr gr' Hg) as H3.
    assert (E1 : starts_left gr' = starts_left gr) by reflexivity.
    assert (E2 : weight gr' = weight gr) by reflexivity.
    assert (E3 : loop_weight gr' = loop_weight gr) by reflexivity.
    unfold budget_inv, pending, in_flight, loops in *. simpl. split; lia.
  - unfold step in Hstep. destruct (crashed w); [discriminate|].
    injection Hstep as <-. split; assumption.
Qed.

(** When [Start] is called at most once in the whole program, whatever the
    callers of [Stop] and the schedule: at most one poll loop is launched,
    and at no time are two goroutines inside [scanDirectory]. *)
Theorem a_single_Start_scans_one_at_a_time cfg tree callers w :
  (List.length (List.filter is_Start (List.concat callers)) ≤ 1)%nat →
  reachable cfg tree callers w →
  (spawned w ≤ 1)%nat
  ∧ ∀ g1 g2 gr1 gr2,
      pool w !! g1 = Some gr1 → pool w !! g2 = Some gr2 →
      in_scan (pc gr1) = true → in_scan (pc gr2) = true →
      g1 = g2.
Proof.
  intros Hone [sched Hrun].
  assert (Hinv : budget_inv w).
  { refine (run_invariant budget_inv budget_inv_step sched _ _ Hrun _).
    unfold budget_inv. simpl. rewrite pending_init. split; [|
      replace (loops (caller <$> callers)) with 0%nat; [lia|]].
    - replace (in_flight (caller <$> callers)) with 0%nat; [lia|].
      clear. induction callers as [|calls rest IH]; [reflexivity|].
      rewrite fmap_cons. unfold in_flight in *. cbn [sum_list_with]. rewrite <- IH.
      destruct calls as [|[] ?]; reflexivity.
    - clear. induction callers as [|calls rest IH]; [reflexivity|].
      rewrite fmap_cons. unfold loops in *. cbn [sum_list_with]. rewrite <- IH.
      destruct calls as [|[] ?]; reflexivity. }
  destruct Hinv as [Hbudget Hloops]. split; [lia|].
  intros g1 g2 gr1 gr2 H1 H2 Hs1 Hs2.
  destruct (decide (g1 = g2)) as [Heq|Hne]; [exact Heq|exfalso].
  pose proof (sum_list_with_two (λ gr, weight gr + loop_weight gr)%nat
                                (pool w) g1 g2 gr1 gr2 Hne H1 H2) as Htwo.
  assert (Hsplit : sum_list_with (λ gr, weight gr + loop_weight gr)%nat (pool w)
                   = (in_flight (pool w) + loops (pool w))%nat).
  { unfold in_flight, loops. generalize (pool w). clear.
    induction l as [|x l IH]; simpl; [reflexivity | rewrite IH; lia]. }
  assert (Hw : ∀ gr, in_scan (pc gr) = true → (1 ≤ weight gr + loop_weight gr)%nat).
  { intros gr Hs. unfold weight, loop_weight. destruct (pc gr); simpl in *;
      try discriminate Hs; lia. }
  pose proof (Hw gr1 Hs1). pose proof (Hw gr2 Hs2). cbv beta in Htwo. lia.
Qed.

Lemma a_single_Start_scans_one_at_a_time_witness :
  match run (alone 0 13 ++ [Run 1 false; Tick 1] ++ alone 1 3) start_stop_program with
  | Some w => (spawned w ≤ 1)%nat
  | None => False
  end.
Proof.
  destruct (run (alone 0 13 ++ [Run 1 false; Tick 1] ++ alone 1 3) start_stop_program)
    as [w|] eqn:Hrun; [|vm_compute in Hrun; discriminate Hrun].
  apply (a_single_Start_scans_one_at_a_time default_config tree_a_b
           [[CallStart; CallStop]] w).
  - simpl. lia.
  - exists (alone 0 13 ++ [Run 1 false; Tick 1] ++ alone 1 3). exact Hrun.
Defined.

End one_scan_at_a_time.
